(** * esp-data-streamer: the download client ([python/data-streamer/client.py])

    A shallow embedding of the [Client] class: the speed helpers, the
    incremental multipart decoder [_handle_multipart_response], the
    single-file handler and the [download] dispatcher, followed by the
    properties of the specification that were checked against them.

    Conventions of the embedding.
    - Python [bytes]/[bytearray] are [list byte]; Python [str] is a list of
      Unicode code points ([list N]).
    - [bytes.find] returns [option nat] ([None] for Python's [-1]).
    - A raised exception is the [Raise] outcome of a [result]; it carries the
      state of the outside world (files, standard output) at the raise.
    - The filesystem is a finite map from paths to file contents; writes
      reach the file at once (Python's user-space buffering is not
      modelled). [open] fails as the environment tells. The handlers are
      given twice: first with [write], [close] and [print] taken to
      succeed, then ([Client.Faulty]) with each of these calls failing as
      the environment tells; [download] runs the second.
    - [LOGGER.info] lines are left out: they read the wall clock and never
      influence the files or the control flow. *)

From Stdlib Require Import ZArith NArith Strings.Byte Floats DecimalString.
From stdpp Require Import gmap strings list fin_maps.

Abbreviation bytes := (list byte).
Abbreviation str := (list N).

#[global] Instance byte_eq_decision : EqDecision byte := Byte.byte_eq_dec.

(** Literals: [bytes_of s] is the bytes literal and [str_of s] the text
    literal with the characters of [s] (ASCII). *)
Definition bytes_of (s : string) : bytes := String.list_byte_of_string s.
Definition str_of (s : string) : str := Byte.to_N <$> String.list_byte_of_string s.

Definition CR : byte := x0d.
Definition LF : byte := x0a.
Definition CRLF : bytes := [CR; LF].
Definition CRLFCRLF : bytes := CRLF ++ CRLF.
Definition QUOTE : N := 34%N.

(** ** Sequence primitives: [startswith], [find], [in] *)

Section Sequences.
Context {A : Type} `{EqDecision A}.

(** [l.startswith(p)] *)
Fixpoint startswith (p l : list A) : bool :=
  match p, l with
  | [], _ => true
  | _ :: _, [] => false
  | x :: p', y :: l' => if bool_decide (x = y) then startswith p' l' else false
  end.

(** [l.find(sub)]: the lowest index at which [sub] occurs in [l]. *)
Fixpoint find (sub l : list A) : option nat :=
  if startswith sub l then Some 0
  else match l with
       | [] => None
       | _ :: l' => S <$> find sub l'
       end.

(** [sub in l] *)
Definition contains (sub l : list A) : bool :=
  match find sub l with Some _ => true | None => false end.
End Sequences.

(** ** UTF-8: [bytes.decode("utf-8")] and [str.encode("utf-8")]

    Both are strict: the decoder refuses stray continuation bytes,
    overlong forms, surrogates and values above U+10FFFF
    ([UnicodeDecodeError]); the encoder refuses surrogates
    ([UnicodeEncodeError]). [None] stands for the raise. *)

Definition in_range (lo hi : N) (b : byte) : bool :=
  ((lo <=? Byte.to_N b) && (Byte.to_N b <=? hi))%N.

Definition is_continuation : byte → bool := in_range 128 191.

Definition low6 (b : byte) : N := (Byte.to_N b - 128)%N.

Fixpoint utf8_decode (l : bytes) : option str :=
  match l with
  | [] => Some []
  | b0 :: l1 =>
    let n0 := Byte.to_N b0 in
    if (n0 <? 128)%N then cons n0 <$> utf8_decode l1
    else if in_range 194 223 b0 then
      match l1 with
      | b1 :: l2 =>
        if is_continuation b1
        then cons ((n0 - 192) * 64 + low6 b1)%N <$> utf8_decode l2
        else None
      | _ => None
      end
    else if in_range 224 239 b0 then
      match l1 with
      | b1 :: b2 :: l3 =>
        let lo := if (n0 =? 224)%N then 160%N else 128%N in
        let hi := if (n0 =? 237)%N then 159%N else 191%N in
        if in_range lo hi b1 && is_continuation b2
        then cons ((n0 - 224) * 4096 + low6 b1 * 64 + low6 b2)%N <$> utf8_decode l3
        else None
      | _ => None
      end
    else if in_range 240 244 b0 then
      match l1 with
      | b1 :: b2 :: b3 :: l4 =>
        let lo := if (n0 =? 240)%N then 144%N else 128%N in
        let hi := if (n0 =? 244)%N then 143%N else 191%N in
        if in_range lo hi b1 && is_continuation b2 && is_continuation b3
        then cons ((n0 - 240) * 262144 + low6 b1 * 4096 + low6 b2 * 64 + low6 b3)%N
               <$> utf8_decode l4
        else None
      | _ => None
      end
    else None
  end.

Definition byte_of_N (n : N) : byte := default x00 (Byte.of_N n).

Definition encode_char (c : N) : option bytes :=
  if (c <? 128)%N then Some [byte_of_N c]
  else if (c <? 2048)%N then
    Some [byte_of_N (192 + c / 64); byte_of_N (128 + c mod 64)]
  else if ((55296 <=? c) && (c <=? 57343))%N then None
  else if (c <? 65536)%N then
    Some [byte_of_N (224 + c / 4096); byte_of_N (128 + (c / 64) mod 64);
          byte_of_N (128 + c mod 64)]
  else if (c <? 1114112)%N then
    Some [byte_of_N (240 + c / 262144); byte_of_N (128 + (c / 4096) mod 64);
          byte_of_N (128 + (c / 64) mod 64); byte_of_N (128 + c mod 64)]
  else None.

Definition utf8_encode (s : str) : option bytes := @concat byte <$> mapM encode_char s.

(** ** Regular expressions: the fragment of [re] that the client uses

    A pattern is a sequence of atoms; an atom is a character class under a
    quantifier, and may be the capture group. Quantifiers are greedy and
    backtrack, as in [re]: the longest repetition is tried first.
    [re_search] returns the text of group 1 of the leftmost match. *)

Inductive quantifier := Once | ZeroOrOne | ZeroOrMore | OneOrMore.

Record atom := Atom { accepts : N → bool; times : quantifier; captured : bool }.

Section Matching.
Context {R : Type} (accept : N → bool) (k : str → option R).

(** [star s]: consume as many accepted characters as possible, giving
    them back one at a time while the rest of the pattern, [k], fails. *)
Fixpoint star (s : str) : option (str * R) :=
  match s with
  | c :: s' =>
    if accept c then
      match star s' with
      | Some (taken, r) => Some (c :: taken, r)
      | None => pair [] <$> k s
      end
    else pair [] <$> k s
  | [] => pair [] <$> k s
  end.

Definition repeat_match (q : quantifier) (s : str) : option (str * R) :=
  match q, s with
  | Once, c :: s' => if accept c then pair [c] <$> k s' else None
  | Once, [] => None
  | ZeroOrOne, c :: s' =>
    if accept c then
      match k s' with
      | Some r => Some ([c], r)
      | None => pair [] <$> k s
      end
    else pair [] <$> k s
  | ZeroOrOne, [] => pair [] <$> k s
  | ZeroOrMore, _ => star s
  | OneOrMore, c :: s' =>
    if accept c then
      match star s' with
      | Some (taken, r) => Some (c :: taken, r)
      | None => None
      end
    else None
  | OneOrMore, [] => None
  end.
End Matching.

(** [re.match] at the head of [s]: the text of the capture group. *)
Fixpoint match_here (pattern : list atom) (s : str) : option str :=
  match pattern with
  | [] => Some []
  | a :: pattern' =>
    match repeat_match (accepts a) (match_here pattern') (times a) s with
    | Some (taken, group) => Some (if captured a then taken else group)
    | None => None
    end
  end.

(** [re.search(pattern, s).group(1)], [None] when nothing matches. *)
Fixpoint re_search (pattern : list atom) (s : str) : option str :=
  match match_here pattern s with
  | Some group => Some group
  | None =>
    match s with
    | [] => None
    | _ :: s' => re_search pattern s'
    end
  end.

Definition literal (text : str) : list atom :=
  (λ c, Atom (N.eqb c) Once false) <$> text.

(** [.]: anything but a line feed. *)
Definition dot (c : N) : bool := negb (c =? 10)%N.

(** The class of every character but the double quote (written Q below). *)
Definition not_quote (c : N) : bool := negb (c =? QUOTE)%N.

(** [\s] on [str]: the characters for which [str.isspace()] holds. *)
Definition is_space (c : N) : bool :=
  (((9 <=? c) && (c <=? 13)) || ((28 <=? c) && (c <=? 32)) || (c =? 133) || (c =? 160)
   || (c =? 5760) || ((8192 <=? c) && (c <=? 8202)) || (c =? 8232) || (c =? 8233)
   || (c =? 8239) || (c =? 8287) || (c =? 12288))%N.

(** The pattern [boundary=] followed by one group: any run of [.],
    possibly empty. *)
Definition boundary_re : list atom :=
  literal (str_of "boundary=") ++ [Atom dot ZeroOrMore true].

(** [r'X-Part-Name:\s*Q([^Q]+)Q'] *)
Definition part_name_re : list atom :=
  literal (str_of "X-Part-Name:")
  ++ [Atom is_space ZeroOrMore false; Atom (N.eqb QUOTE) Once false;
      Atom not_quote OneOrMore true; Atom (N.eqb QUOTE) Once false].

(** [r'filename=Q?([^Q]+)Q?'] *)
Definition filename_re : list atom :=
  literal (str_of "filename=")
  ++ [Atom (N.eqb QUOTE) ZeroOrOne false; Atom not_quote OneOrMore true;
      Atom (N.eqb QUOTE) ZeroOrOne false].

(** ** Exceptions, the outside world, results *)

Inductive exn :=
  | ValueError (msg : str)
  | UnicodeDecodeError
  | UnicodeEncodeError
  | OverflowError
  | OSError (path : str)
  | HTTPError (status : N)
  | ChunkedEncodingError
  | RequestException
  | KeyboardInterrupt.

(** [isinstance(e, ChunkedEncodingError)] *)
Definition is_ChunkedEncodingError (e : exn) : bool :=
  match e with ChunkedEncodingError => true | _ => false end.

(** [isinstance(e, Exception)]: everything but the [BaseException]-only
    signals. *)
Definition is_Exception (e : exn) : bool :=
  match e with KeyboardInterrupt => false | _ => true end.

(** Lines written by [print]. *)
Inductive printed :=
  | PrintDone
  | PrintDownloaded (filename : str)
  | PrintChunkedError (e : exn)
  | PrintError (e : exn).

(** What outlives a call: file contents, the [open] and [close] calls made
    so far (by path, in order), and standard output. *)
Record world := World {
  disk : gmap str bytes;
  opened : list str;
  closed : list str;
  stdout : list printed
}.

Inductive result (A : Type) :=
  | Ok (a : A)
  | Raise (e : exn) (w : world).
Arguments Ok {A} a.
Arguments Raise {A} e w.

Definition bind {A B} (r : result A) (f : A → result B) : result B :=
  match r with
  | Ok a => f a
  | Raise e w => Raise e w
  end.

Definition print (line : printed) (w : world) : world :=
  World (disk w) (opened w) (closed w) (stdout w ++ [line]).

(** [f.write(data)] on the file opened at [path]. *)
Definition file_write (path : str) (data : bytes) (w : world) : world :=
  World (<[path := default [] (disk w !! path) ++ data]> (disk w))
        (opened w) (closed w) (stdout w).

(** [f.close()] *)
Definition file_close (path : str) (w : world) : world :=
  World (disk w) (opened w) (closed w ++ [path]) (stdout w).

(** What the environment answers to a [write], a [close] or a [print]:
    [None] when the call succeeds, the exception it raises otherwise. A
    [write] that fails says how many bytes of the data reached the file
    before it did. *)
Record faults := Faults {
  write_error : str → bytes → world → option (exn * nat);
  close_error : str → world → option exn;
  print_error : printed → world → option exn
}.

(** The environment in which these calls succeed. *)
Definition no_faults : faults := Faults (λ _ _ _, None) (λ _ _, None) (λ _ _, None).

Section Fallible.
Context (io : faults).

(** [print(line)] *)
Definition try_print (line : printed) (w : world) : result world :=
  match print_error io line w with
  | Some e => Raise e w
  | None => Ok (print line w)
  end.

(** [f.write(data)] *)
Definition try_write (path : str) (data : bytes) (w : world) : result world :=
  match write_error io path data w with
  | Some (e, reached) => Raise e (file_write path (take reached data) w)
  | None => Ok (file_write path data w)
  end.

(** [f.close()]: the call is made, whether it raises or not. *)
Definition try_close (path : str) (w : world) : result world :=
  match close_error io path w with
  | Some e => Raise e (file_close path w)
  | None => Ok (file_close path w)
  end.
End Fallible.

(** [os.path.join(a, b)] (POSIX) *)
Definition path_join (a b : str) : str :=
  if startswith [47%N] b then b
  else if bool_decide (a = []) || startswith [47%N] (reverse a) then a ++ b
  else a ++ [47%N] ++ b.

Definition CHUNK_SIZE : Z := 8192.

(** ** The class [Client] *)

Module Client.

Section Environment.
(** [self.download_dir], and the filesystem's answer to [open(path, 'wb')]:
    [None] when the file can be created, the exception raised otherwise. *)
Context (download_dir : str) (open_error : str → option exn).

(** [open(path, 'wb')]: create or truncate. *)
Definition file_open (path : str) (w : world) : result world :=
  match open_error path with
  | Some e => Raise e w
  | None => Ok (World (<[path := []]> (disk w)) (opened w ++ [path]) (closed w) (stdout w))
  end.

(** *** The multipart decoder: [_handle_multipart_response] *)

(** The locals of the function ([current_file] holds the path of the open
    file object) and the world around it. *)
Record state := State {
  current_file : option str;
  buffer : bytes;
  tot_bytes : Z;
  outside : world
}.

Definition set_buffer (b : bytes) (s : state) : state :=
  State (current_file s) b (tot_bytes s) (outside s).

Definition set_outside (w : world) (s : state) : state :=
  State (current_file s) (buffer s) (tot_bytes s) w.

(** [buffer += chunk] *)
Definition extend (chunk : bytes) (s : state) : state :=
  set_buffer (buffer s ++ chunk) s.

(** [tot_bytes = tot_bytes + n] *)
Definition count_bytes (n : Z) (s : state) : state :=
  State (current_file s) (buffer s) (tot_bytes s + n) (outside s).

(** How one pass through the body of [while buffer:] ends: at the bottom
    of the body, or at a [break]. *)
Inductive control :=
  | Continue (s : state)
  | Break (s : state).

Section Decoder.
Context (boundary : bytes).

(** [b'\r\n--' + boundary] *)
Definition marker : bytes := CRLF ++ bytes_of "--" ++ boundary.

(** [b'\r\n--%b--' % boundary] *)
Definition terminal_marker : bytes := CRLF ++ bytes_of "--" ++ boundary ++ bytes_of "--".

(** [if current_file: current_file.close(); current_file = None] *)
Definition close_current (s : state) : state :=
  match current_file s with
  | Some path => State None (buffer s) (tot_bytes s) (file_close path (outside s))
  | None => s
  end.

(** Lines 124 to 141, under the comment [# starting of part]. *)
Definition start_of_part (s : state) : result control :=
  let s := close_current s in
  match find CRLFCRLF (buffer s) with
  | None => Ok (Break s)
  | Some headers_end =>
    match utf8_decode (take headers_end (buffer s)) with
    | None => Raise UnicodeDecodeError (outside s)
    | Some headers =>
      let rest := drop (headers_end + 4) (buffer s) in
      match re_search part_name_re headers with
      | Some current_filename =>
        let path := path_join download_dir current_filename in
        match file_open path (outside s) with
        | Ok w => Ok (Continue (State (Some path) rest (tot_bytes s) w))
        | Raise e w => Raise e w
        end
      | None => Ok (Continue (set_buffer rest s))
      end
    end
  end.

(** Lines 144 to 147, under the comment [# ending of all parts]. *)
Definition end_of_all_parts (s : state) : result control :=
  let w := print PrintDone (outside s) in
  match current_file s with
  | Some path => Ok (Break (set_outside (file_close path w) s))
  | None => Ok (Break (set_outside w s))
  end.

(** Lines 150 to 161, under the comment [# we're currently in the middle
    of a part]; [path] is the file that [current_file] has open. *)
Definition middle_of_part (path : str) (s : state) : result control :=
  match find marker (buffer s) with
  | Some next_boundary =>
    let data := take next_boundary (buffer s) in
    Ok (Continue (State (Some path) (drop next_boundary (buffer s)) (tot_bytes s)
                        (file_write path data (outside s))))
  | None =>
    let safe_length := Z.max 0 (Z.of_nat (length (buffer s)) - CHUNK_SIZE) in
    if (0 <? safe_length)%Z then
      let data := take (Z.to_nat safe_length) (buffer s) in
      Ok (Break (State (Some path) (drop (Z.to_nat safe_length) (buffer s)) (tot_bytes s)
                       (file_write path data (outside s))))
    else Ok (Break s)
  end.

(** The body of [while buffer:], lines 123 to 163: the [if]/[elif] chain. *)
Definition loop_body (s : state) : result control :=
  if startswith marker (buffer s) then start_of_part s
  else if startswith terminal_marker (buffer s) then end_of_all_parts s
  else
    match current_file s with
    | Some path => middle_of_part path s
    | None => Ok (Break s)
    end.

(** [while buffer:] run for at most [fuel] passes. *)
Fixpoint while_buffer (fuel : nat) (s : state) : result state :=
  match fuel with
  | 0 => Ok s
  | S fuel' =>
    match buffer s with
    | [] => Ok s
    | _ =>
      match loop_body s with
      | Ok (Continue s') => while_buffer fuel' s'
      | Ok (Break s') => Ok s'
      | Raise e w => Raise e w
      end
    end
  end.

(** [while buffer:]. A pass that does not [break] shortens the buffer, so
    one pass per buffered byte is enough ([run_loop_unfold] below). *)
Definition run_loop (s : state) : result state :=
  while_buffer (length (buffer s)) s.

(** The body of [for chunk in response.iter_content(...)]. *)
Definition process_chunk (s : state) (chunk : bytes) : result state :=
  let s := count_bytes (Z.of_nat (length chunk)) s in
  match chunk with
  | [] => Ok s
  | _ => run_loop (extend chunk s)
  end.

(** The [for] loop over the chunks that the response yields. *)
Fixpoint for_chunks (s : state) (chunks : list bytes) : result state :=
  match chunks with
  | [] => Ok s
  | chunk :: chunks' => bind (process_chunk s chunk) (λ s', for_chunks s' chunks')
  end.

(** How many chunks the [for] loop has taken from the response when it
    ends or raises. *)
Fixpoint chunks_taken (s : state) (chunks : list bytes) : nat :=
  match chunks with
  | [] => 0
  | chunk :: chunks' =>
    S (match process_chunk s chunk with
       | Ok s' => chunks_taken s' chunks'
       | Raise _ _ => 0
       end)
  end.

(** The locals at the first chunk. *)
Definition initial (w : world) : state := State None [] 0 w.
End Decoder.

(** [response.iter_content]: the chunks that arrive, then either the end
    of the body or a transport failure raised by the iterator. *)
Record source := Source { chunks : list bytes; failure : option exn }.

Record response := Response {
  status_code : N;
  content_type_header : option str;
  content_disposition_header : option str;
  body : source
}.

(** The result of a handler and the number of chunks it took. *)
Definition handled : Type := result world * nat.

(** Lines 107 to 112: the boundary token of a Content-Type value. *)
Definition extract_boundary (content_type : str) (w : world) : result bytes :=
  match re_search boundary_re content_type with
  | None => Raise (ValueError (str_of "No boundary found in Content-Type header")) w
  | Some group =>
    match utf8_encode group with
    | Some boundary => Ok boundary
    | None => Raise UnicodeEncodeError w
    end
  end.

(** The end of the [for] loop: the iterator is exhausted or raises. *)
Definition end_of_source (failure : option exn) (w : world) : result world :=
  match failure with
  | Some e => Raise e w
  | None => Ok w
  end.

Definition handle_multipart_response (r : response) (w : world) : handled :=
  let content_type := default [] (content_type_header r) in
  match extract_boundary content_type w with
  | Raise e w => (Raise e w, 0)
  | Ok boundary =>
    let s := initial w in
    (bind (for_chunks boundary s (chunks (body r)))
          (λ s', end_of_source (failure (body r)) (outside s')),
     chunks_taken boundary s (chunks (body r)))
  end.

(** *** The single-file handler: [_handle_single_file_response] *)

(** [for chunk in ...: if chunk: f.write(chunk)] *)
Definition write_chunks (path : str) (chunks : list bytes) (w : world) : world :=
  foldl (λ w chunk, match chunk with [] => w | _ => file_write path chunk w end) w chunks.

Definition handle_single_file_response (r : response) (w : world) : handled :=
  match content_disposition_header r with
  | None | Some [] => (Raise (ValueError (str_of "No Content-Disposition header")) w, 0)
  | Some cd =>
    match re_search filename_re cd with
    | None => (Raise (ValueError (str_of "No filename in Content-Disposition header")) w, 0)
    | Some filename =>
      let filepath := path_join download_dir filename in
      match file_open filepath w with
      | Raise e w => (Raise e w, 0)
      | Ok w =>
        (* the [with] block closes the file however it is left *)
        let w := file_close filepath (write_chunks filepath (chunks (body r)) w) in
        (bind (end_of_source (failure (body r)) w) (λ w, Ok (print (PrintDownloaded filename) w)),
         length (chunks (body r)))
      end
    end
  end.

(** *** The request of [download] *)

(** What [self.session.get(...)] does: raise, or hand back a response. *)
Inductive fetched :=
  | GetRaises (e : exn)
  | GetResponse (r : response).

(** [response.raise_for_status()] *)
Definition raise_for_status (r : response) (w : world) : result world :=
  if ((400 <=? status_code r) && (status_code r <? 600))%N
  then Raise (HTTPError (status_code r)) w
  else Ok w.

End Environment.

(** *** The handlers when [write], [close] and [print] can fail

    The same lines of the source as above, with the three calls answered
    by the environment [io]. An exception that one of them raises leaves
    the handler, as nothing in the handlers catches it. *)

Module Faulty.
Section Environment.
Context (download_dir : str) (open_error : str → option exn) (io : faults).

Section Decoder.
Context (boundary : bytes).

(** [if current_file: current_file.close(); current_file = None] *)
Definition close_current (s : state) : result state :=
  match current_file s with
  | Some path =>
    bind (try_close io path (outside s)) (λ w, Ok (State None (buffer s) (tot_bytes s) w))
  | None => Ok s
  end.

(** Lines 124 to 141. *)
Definition start_of_part (s : state) : result control :=
  bind (close_current s) (λ s,
    match find CRLFCRLF (buffer s) with
    | None => Ok (Break s)
    | Some headers_end =>
      match utf8_decode (take headers_end (buffer s)) with
      | None => Raise UnicodeDecodeError (outside s)
      | Some headers =>
        let rest := drop (headers_end + 4) (buffer s) in
        match re_search part_name_re headers with
        | Some current_filename =>
          let path := path_join download_dir current_filename in
          bind (file_open open_error path (outside s)) (λ w,
            Ok (Continue (State (Some path) rest (tot_bytes s) w)))
        | None => Ok (Continue (set_buffer rest s))
        end
      end
    end).

(** Lines 144 to 147. *)
Definition end_of_all_parts (s : state) : result control :=
  bind (try_print io PrintDone (outside s)) (λ w,
    match current_file s with
    | Some path => bind (try_close io path w) (λ w, Ok (Break (set_outside w s)))
    | None => Ok (Break (set_outside w s))
    end).

(** Lines 150 to 161. *)
Definition middle_of_part (path : str) (s : state) : result control :=
  match find (marker boundary) (buffer s) with
  | Some next_boundary =>
    let data := take next_boundary (buffer s) in
    bind (try_write io path data (outside s)) (λ w,
      Ok (Continue (State (Some path) (drop next_boundary (buffer s)) (tot_bytes s) w)))
  | None =>
    let safe_length := Z.max 0 (Z.of_nat (length (buffer s)) - CHUNK_SIZE) in
    if (0 <? safe_length)%Z then
      let data := take (Z.to_nat safe_length) (buffer s) in
      bind (try_write io path data (outside s)) (λ w,
        Ok (Break (State (Some path) (drop (Z.to_nat safe_length) (buffer s))
                         (tot_bytes s) w)))
    else Ok (Break s)
  end.

(** The body of [while buffer:], lines 123 to 163. *)
Definition loop_body (s : state) : result control :=
  if startswith (marker boundary) (buffer s) then start_of_part s
  else if startswith (terminal_marker boundary) (buffer s) then end_of_all_parts s
  else
    match current_file s with
    | Some path => middle_of_part path s
    | None => Ok (Break s)
    end.

Fixpoint while_buffer (fuel : nat) (s : state) : result state :=
  match fuel with
  | 0 => Ok s
  | S fuel' =>
    match buffer s with
    | [] => Ok s
    | _ =>
      match loop_body s with
      | Ok (Continue s') => while_buffer fuel' s'
      | Ok (Break s') => Ok s'
      | Raise e w => Raise e w
      end
    end
  end.

(** [while buffer:], with one pass per buffered byte as above. *)
Definition run_loop (s : state) : result state :=
  while_buffer (length (buffer s)) s.

Definition process_chunk (s : state) (chunk : bytes) : result state :=
  let s := count_bytes (Z.of_nat (length chunk)) s in
  match chunk with
  | [] => Ok s
  | _ => run_loop (extend chunk s)
  end.

Fixpoint for_chunks (s : state) (chunks : list bytes) : result state :=
  match chunks with
  | [] => Ok s
  | chunk :: chunks' => bind (process_chunk s chunk) (λ s', for_chunks s' chunks')
  end.

Fixpoint chunks_taken (s : state) (chunks : list bytes) : nat :=
  match chunks with
  | [] => 0
  | chunk :: chunks' =>
    S (match process_chunk s chunk with
       | Ok s' => chunks_taken s' chunks'
       | Raise _ _ => 0
       end)
  end.
End Decoder.

Definition handle_multipart_response (r : response) (w : world) : handled :=
  let content_type := default [] (content_type_header r) in
  match extract_boundary content_type w with
  | Raise e w => (Raise e w, 0)
  | Ok boundary =>
    let s := initial w in
    (bind (for_chunks boundary s (chunks (body r)))
          (λ s', end_of_source (failure (body r)) (outside s')),
     chunks_taken boundary s (chunks (body r)))
  end.

(** [for chunk in ...: if chunk: f.write(chunk)]: how the loop ends when
    the response yields these chunks, and how many of them it took. *)
Fixpoint write_chunks (path : str) (chunks : list bytes) (w : world) : handled :=
  match chunks with
  | [] => (Ok w, 0)
  | chunk :: chunks' =>
    match chunk with
    | [] => let '(r, taken) := write_chunks path chunks' w in (r, S taken)
    | _ =>
      match try_write io path chunk w with
      | Ok w => let '(r, taken) := write_chunks path chunks' w in (r, S taken)
      | Raise e w => (Raise e w, 1)
      end
    end
  end.

(** Leaving [with open(...) as f:]. [f.close()] is called however the
    block was left; an exception that it raises takes the place of the one
    that ended the block. *)
Definition leave_with (path : str) (block : result world) : result world :=
  match block with
  | Ok w => try_close io path w
  | Raise e w => bind (try_close io path w) (λ w, Raise e w)
  end.

Definition handle_single_file_response (r : response) (w : world) : handled :=
  match content_disposition_header r with
  | None | Some [] => (Raise (ValueError (str_of "No Content-Disposition header")) w, 0)
  | Some cd =>
    match re_search filename_re cd with
    | None => (Raise (ValueError (str_of "No filename in Content-Disposition header")) w, 0)
    | Some filename =>
      let filepath := path_join download_dir filename in
      match file_open open_error filepath w with
      | Raise e w => (Raise e w, 0)
      | Ok w =>
        let '(written, taken) := write_chunks filepath (chunks (body r)) w in
        let block := bind written (end_of_source (failure (body r))) in
        (bind (leave_with filepath block) (try_print io (PrintDownloaded filename)), taken)
      end
    end
  end.
End Environment.
End Faulty.

(** *** [download] *)

Section Download.
Context (download_dir : str) (open_error : str → option exn) (io : faults).

(** The [try] block of [download], with the number of chunks that were
    taken from the response. *)
Definition download_body (get : fetched) (w : world) : handled :=
  match get with
  | GetRaises e => (Raise e w, 0)
  | GetResponse r =>
    match raise_for_status r w with
    | Raise e w => (Raise e w, 0)
    | Ok w =>
      let content_type := default [] (content_type_header r) in
      if contains (str_of "multipart") content_type
      then Faulty.handle_multipart_response download_dir open_error io r w
      else Faulty.handle_single_file_response download_dir open_error io r w
    end
  end.

(** [download]: the [try] block under its two [except] clauses. An
    exception that neither clause names propagates, and so does one that
    the [print] of a clause raises: the clauses are outside the [try]. *)
Definition download (get : fetched) (w : world) : handled :=
  match download_body get w with
  | (Ok w, taken) => (Ok w, taken)
  | (Raise e w, taken) =>
    if is_ChunkedEncodingError e then (try_print io (PrintChunkedError e) w, taken)
    else if is_Exception e then (try_print io (PrintError e) w, taken)
    else (Raise e w, taken)
  end.
End Download.

(** ** The speed helpers: [_calculate_speed] and [_format_speed]

    Python floats are IEEE 754 binary64 numbers, as are the primitive
    floats used here. *)

(** [float(n)] for an [int]: rounded to nearest, ties to even;
    [OverflowError] when [n] is too large for a float. *)
Definition float_of_int (n : Z) : option float :=
  let x := SF2Prim (binary_normalize prec emax n 0 false) in
  if PrimFloat.is_infinity x then None else Some x.

Definition calculate_speed (bytes_received total_bytes : Z) (elapsed_time : float)
  : exn + float * float :=
  if PrimFloat.eqb elapsed_time 0 then inr (0%float, 0%float)
  else
    match float_of_int bytes_received, float_of_int total_bytes with
    | Some received, Some total =>
      inr (PrimFloat.div received elapsed_time, PrimFloat.div total elapsed_time)
    | _, _ => inl OverflowError
    end.

Definition decimal (n : Z) : str := str_of (NilZero.string_of_uint (N.to_uint (Z.to_N n))).

(** [m * 2^e] rounded to an integer, ties to even. *)
Definition round_half_even (m e : Z) : Z :=
  if (0 <=? e)%Z then (m * 2 ^ e)%Z
  else
    let d := (2 ^ (- e))%Z in
    let q := (m / d)%Z in
    let r := (m mod d)%Z in
    if (d <? 2 * r)%Z then (q + 1)%Z
    else if (2 * r =? d)%Z && Z.odd q then (q + 1)%Z
    else q.

(** [format(x, '.2f')]: the exact value of [x] rounded to two decimals. *)
Definition format_2f (x : float) : str :=
  let sign (negative : bool) := if negative then str_of "-" else [] in
  match Prim2SF x with
  | S754_nan => str_of "nan"
  | S754_infinity s => sign s ++ str_of "inf"
  | S754_zero s => sign s ++ str_of "0.00"
  | S754_finite s m e =>
    let hundredths := round_half_even (Z.pos m * 100) e in
    sign s ++ decimal (hundredths / 100) ++ str_of "."
    ++ decimal (hundredths / 10 mod 10) ++ decimal (hundredths mod 10)
  end.

(** The [for unit in ...] loop of [_format_speed] and the line after it. *)
Fixpoint format_speed_from (units : list str) (speed : float) : str :=
  match units with
  | unit :: units' =>
    if PrimFloat.ltb speed 1024 then format_2f speed ++ str_of " " ++ unit
    else format_speed_from units' (PrimFloat.div speed 1024)
  | [] => format_2f speed ++ str_of " TB/s"
  end.

Definition format_speed (speed : float) : str :=
  format_speed_from [str_of "B/s"; str_of "KB/s"; str_of "MB/s"; str_of "GB/s"] speed.
End Client.

Import Client.

(** ** A reference parse of a whole multipart stream

    This is not code of the client: it is the single-shot parse that the
    specification compares the decoder with, written from its description
    of a stream. A well-formed stream is a sequence of parts and then the
    terminal marker, with at most a line break after it. A part is the
    marker, a header block that declares a name and ends at the first
    blank line, and the payload, which runs up to the next marker. *)

Section Reference.
Context (boundary : bytes).

(** The declared name of a header block (the key is the one the client
    looks for). *)
Definition declared_name (header_block : bytes) : option str :=
  utf8_decode header_block ≫= re_search part_name_re.

(** The parts of [stream], as pairs of a name and a payload; [None] when
    the stream is not well formed. Each part uses up one unit of [fuel]. *)
Fixpoint reference_parts (fuel : nat) (stream : bytes) : option (list (str * bytes)) :=
  match fuel with
  | 0 => None
  | S fuel' =>
    if startswith (terminal_marker boundary) stream then
      let epilogue := drop (length (terminal_marker boundary)) stream in
      if bool_decide (epilogue = []) || bool_decide (epilogue = CRLF) then Some [] else None
    else if startswith (marker boundary) stream then
      match find CRLFCRLF stream with
      | None => None
      | Some headers_end =>
        match declared_name (take headers_end stream) with
        | None => None
        | Some name =>
          let rest := drop (headers_end + 4) stream in
          match find (marker boundary) rest with
          | None => None
          | Some payload_end =>
            cons (name, take payload_end rest)
              <$> reference_parts fuel' (drop payload_end rest)
          end
        end
      end
    else None
  end.

Definition reference_parse (stream : bytes) : option (list (str * bytes)) :=
  reference_parts (length stream) stream.
End Reference.

(** The files that a list of parts amounts to: one file per part in the
    download directory, a later part replacing an earlier one of the same
    name. *)
Definition reference_files (download_dir : str) (parts : list (str * bytes))
    (disk : gmap str bytes) : gmap str bytes :=
  foldl (λ d part, <[path_join download_dir part.1 := part.2]> d) disk parts.

(** The outside world after the parts of a stream have been written, when
    [current] was the open file before its first marker. *)
Definition after_parts (download_dir : str) (current : option str)
    (parts : list (str * bytes)) (w : world) : world :=
  let paths := (λ part, path_join download_dir part.1) <$> parts in
  World (reference_files download_dir parts (disk w))
        (opened w ++ paths)
        (closed w ++ option_list current ++ paths)
        (stdout w).

(** ** Properties of the decoder's states *)

(** Every file that was opened has been closed, but the one that
    [current_file] holds. *)
Definition balanced (s : state) : Prop :=
  opened (outside s) = closed (outside s) ++ option_list (current_file s).

(** While a part is open, what stays in the buffer between two chunks is
    at most [CHUNK_SIZE] bytes. *)
Definition tail_bounded (s : state) : Prop :=
  is_Some (current_file s) → (Z.of_nat (length (buffer s)) ≤ CHUNK_SIZE)%Z.



(** ** Sample inputs *)

Module Sample.
Definition quote : bytes := [x22].

(** A start marker for the boundary [B] and a header block naming [name]. *)
Definition part_header (name : string) : bytes :=
  CRLF ++ bytes_of "--B" ++ CRLF ++ bytes_of "X-Part-Name: " ++ quote ++ bytes_of name
  ++ quote ++ CRLFCRLF.

(** The terminal marker for the boundary [B] and a line break. *)
Definition terminal : bytes := CRLF ++ bytes_of "--B--" ++ CRLF.

(** Two parts, [f] holding [hi] and [g] holding [world]. *)
Definition two_parts : bytes :=
  part_header "f" ++ bytes_of "hi" ++ part_header "g" ++ bytes_of "world" ++ terminal.

(** A terminal marker and, after it, what reads as one more part. *)
Definition part_after_terminal : bytes :=
  CRLF ++ bytes_of "--B--" ++ CRLF ++ bytes_of "X-Part-Name: " ++ quote ++ bytes_of "g"
  ++ quote ++ CRLFCRLF ++ bytes_of "xyz".


(** One chunk per byte. *)
Definition bytewise (stream : bytes) : list bytes := (λ b, [b]) <$> stream.

Definition empty_world : world := World ∅ [] [] [].
Definition out : str := str_of "out".
Definition can_open : str → option exn := λ _, None.
Definition multipart_mixed : str := str_of "multipart/mixed; boundary=B".

Definition multipart (content_type : str) (chunks : list bytes) : response :=
  Response 200 (Some content_type) None (Source chunks None).

(** A boundary of 8190 bytes: its marker is one byte longer than what the
    decoder holds back. One part, [f] holding [x], cut into two chunks one
    byte before the end of the marker that follows the payload. *)
Definition long_boundary : bytes := replicate (Z.to_nat 8190) x61.

Definition cut_first : bytes :=
  marker long_boundary ++ CRLF ++ bytes_of "X-Part-Name: " ++ quote ++ bytes_of "f"
  ++ quote ++ CRLFCRLF ++ bytes_of "x" ++ take (Z.to_nat 8193) (marker long_boundary).

Definition cut_second : bytes :=
  drop (Z.to_nat 8193) (marker long_boundary) ++ bytes_of "--".
End Sample.

(** ** Python dictionaries

    A [dict] keeps its keys in the order of their first insertion: it is
    modelled as a list of pairs in which no key occurs twice. *)

Section Dict.
Context {K V : Type} `{EqDecision K}.

(** [d.get(k)] *)
Fixpoint dict_get (k : K) (d : list (K * V)) : option V :=
  match d with
  | [] => None
  | (k', v) :: d' => if decide (k = k') then Some v else dict_get k d'
  end.

(** [k in d] *)
Definition dict_in (k : K) (d : list (K * V)) : bool :=
  match dict_get k d with Some _ => true | None => false end.

(** [d[k] = v]: a key that is there keeps its place. *)
Fixpoint dict_set (k : K) (v : V) (d : list (K * V)) : list (K * V) :=
  match d with
  | [] => [(k, v)]
  | (k', v') :: d' => if decide (k = k') then (k, v) :: d' else (k', v') :: dict_set k v d'
  end.

(** [del d[k]], for a key that is there. *)
Fixpoint dict_del (k : K) (d : list (K * V)) : list (K * V) :=
  match d with
  | [] => []
  | (k', v') :: d' => if decide (k = k') then d' else (k', v') :: dict_del k d'
  end.

(** [list(d.keys())] *)
Definition dict_keys (d : list (K * V)) : list K := d.*1.
End Dict.

(** ** The mDNS listener: the class [ESPListener] *)

Module ESPListener.
Section Listener.
(** The type of the records that [zc.get_service_info] returns. *)
Context {info : Type}.

(** [name.split(".")[0]] *)
Fixpoint before_first_dot (name : str) : str :=
  match name with
  | [] => []
  | c :: name' => if (c =? 46)%N then [] else c :: before_first_dot name'
  end.

(** [__init__]: [self.devices = {}] *)
Definition init : list (str * info) := [].

Definition update_service (type_ name : str) (devices : list (str * info))
  : list (str * info) := devices.

Definition remove_service (type_ name : str) (devices : list (str * info))
  : list (str * info) :=
  if dict_in name devices then dict_del name devices else devices.

(** [answer] is what [zc.get_service_info(type_, name)] returns at the
    call: the record of the service, or [None]. *)
Definition add_service (type_ name : str) (answer : option info)
    (devices : list (str * info)) : list (str * info) :=
  if negb (startswith (str_of "esp-") name) then devices
  else
    match answer with
    | Some i => dict_set (before_first_dot name) i devices
    | None => devices
    end.

(** The calls that the service browser makes on the listener. *)
Inductive call :=
  | Add (type_ name : str) (answer : option info)
  | Remove (type_ name : str)
  | Update (type_ name : str).

Definition handle (devices : list (str * info)) (c : call) : list (str * info) :=
  match c with
  | Add type_ name answer => add_service type_ name answer devices
  | Remove type_ name => remove_service type_ name devices
  | Update type_ name => update_service type_ name devices
  end.

(** [listener.devices] after a sequence of calls on a new listener. *)
Definition after_calls (calls : list call) : list (str * info) := foldl handle init calls.
End Listener.
End ESPListener.

(** ** [config_callback] *)

Module Config.
Section Callback.
(** The values of the configuration file, and
    [yaml.safe_load(Path(value).read_text())] for a file whose document
    is a mapping with text keys (click's [default_map] is such a mapping;
    other documents are not modelled). *)
Context {V : Type} (load : str → gmap str V).

(** [if "from" in map: map["from_"] = map.pop("from")] *)
Definition rename_from (map : gmap str V) : gmap str V :=
  match map !! str_of "from" with
  | Some v => <[str_of "from_" := v]> (delete (str_of "from") map)
  | None => map
  end.

(** [config_callback(ctx, param, value)]: the new [ctx.default_map] and
    the value returned. [value] is the path given with [--config], if any. *)
Definition config_callback (default_map : option (gmap str V)) (value : option str)
  : option (gmap str V) * option str :=
  match value with
  | Some path => (Some (rename_from (load path)), value)
  | None => (default_map, value)
  end.
End Callback.
End Config.

(** ** [main]: the choice of the device *)

Module Main.





End Main.

(** ** More sample inputs *)

Module Fixture.
(** The decoder in the middle of the part [f]: two bytes written, five in
    the buffer. *)
Definition writing : state :=
  State (Some (str_of "out/f")) (bytes_of "01234") 5
        (World (<[str_of "out/f" := bytes_of "ab"]> ∅) [str_of "out/f"] [] []).

(** The decoder with a start marker in the buffer and nothing after it. *)
Definition at_marker : state := State None (marker (bytes_of "B")) 5 Sample.empty_world.

(** The decoder with a stream that lacks the line break before its first
    marker. *)
Definition no_line_break : state := State None (bytes_of "--B") 3 Sample.empty_world.

Definition service_type : str := str_of "_https._tcp.local.".

(** Two devices and a printer are announced; records are numbers here. *)
Definition calls : list (ESPListener.call (info := nat)) :=
  [ESPListener.Add service_type (str_of "esp-1._https._tcp.local.") (Some 7);
   ESPListener.Add service_type (str_of "printer._https._tcp.local.") (Some 8);
   ESPListener.Add service_type (str_of "esp-2._https._tcp.local.") (Some 9)].

(** A configuration file with the keys [from] and [to]. *)
Definition load (path : str) : gmap str nat :=
  <[str_of "from" := 1]> (<[str_of "to" := 2]> ∅).

(** The second write to any file fails for lack of space after one byte. *)
Definition disk_full : faults :=
  Faults (λ path data w, if bool_decide (default [] (disk w !! path) = []) then None
                         else Some (OSError path, 1))
         (λ _ _, None) (λ _ _, None).

(** Standard output is closed: every [print] fails. *)
Definition closed_stdout : faults :=
  Faults (λ _ _ _, None) (λ _ _, None) (λ _ _, Some (OSError (str_of "<stdout>"))).

Definition single_file : response :=
  Response 200 None (Some (str_of "attachment; filename=data.bin"))
           (Source [bytes_of "ab"; bytes_of "cde"; bytes_of "f"] None).
End Fixture.

(** * Facts about the sequence primitives *)

Section SequenceFacts.
Context {A : Type} `{EqDecision A}.
Implicit Types p sub l c : list A.

Lemma startswith_prefix p l : startswith p l = true ↔ p `prefix_of` l.
Proof.
  revert l; induction p as [|x p IH]; intros [|y l]; simpl.
  - split; [intros _; apply prefix_nil | done].
  - split; [intros _; apply prefix_nil | done].
  - split; [done | intros Hp; by apply prefix_nil_not in Hp].
  - case_bool_decide as Hxy.
    + subst y. rewrite IH. split; [apply prefix_cons | apply prefix_cons_inv_2].
    + split; [done | intros Hp; by apply prefix_cons_inv_1 in Hp].
Qed.

Lemma startswith_app p l : startswith p (p ++ l) = true.
Proof. apply startswith_prefix. by apply prefix_app_r. Qed.

Lemma startswith_length p l : startswith p l = true → length p ≤ length l.
Proof. intros Hp%startswith_prefix. by apply prefix_length. Qed.

Lemma startswith_take p l : startswith p l = true → take (length p) l = p.
Proof.
  intros [k ->]%startswith_prefix. by rewrite take_app_length.
Qed.

(** Bytes that arrive later cannot undo a match, and cannot create one
    at the head once the buffer is as long as the pattern. *)
Lemma startswith_app_r p l c : startswith p l = true → startswith p (l ++ c) = true.
Proof.
  rewrite !startswith_prefix. intros Hp. by apply prefix_app_r.
Qed.

Lemma startswith_app_long p l c :
  length p ≤ length l → startswith p (l ++ c) = startswith p l.
Proof.
  revert l; induction p as [|x p IH]; intros [|y l] Hlen; simpl in *; try done; try lia.
  case_bool_decide; [|done]. apply IH. lia.
Qed.

Lemma startswith_trans p q l :
  startswith p q = true → startswith q l = true → startswith p l = true.
Proof. rewrite !startswith_prefix. apply transitivity. Qed.

Lemma find_Some_0 sub l : find sub l = Some 0 ↔ startswith sub l = true.
Proof.
  destruct l as [|y l]; simpl; destruct (startswith sub _) eqn:E; try done.
  destruct (find sub l); done.
Qed.

Lemma find_unfold sub l :
  find sub l = if startswith sub l then Some 0
               else match l with [] => None | _ :: l' => S <$> find sub l' end.
Proof. by destruct l. Qed.

Lemma find_Some_startswith sub l i :
  find sub l = Some i → startswith sub (drop i l) = true.
Proof.
  revert i; induction l as [|y l IH]; intros i; rewrite find_unfold.
  - destruct (startswith sub []) eqn:E; [|done]. intros [= <-]. done.
  - destruct (startswith sub (y :: l)) eqn:E.
    + intros [= <-]. done.
    + destruct (find sub l) as [j|] eqn:F; [|done]. intros [= <-]. simpl. by apply IH.
Qed.

Lemma find_Some_length sub l i : find sub l = Some i → i + length sub ≤ length l.
Proof.
  intros Hf. pose proof (find_Some_startswith _ _ _ Hf) as Hs.
  apply startswith_length in Hs. rewrite length_drop in Hs.
  assert (i ≤ length l); [|lia].
  clear Hs. revert i Hf; induction l as [|y l IH]; intros i; rewrite find_unfold.
  - destruct (startswith sub []); [intros [= <-]; simpl; lia | done].
  - destruct (startswith sub (y :: l)); [intros [= <-]; simpl; lia |].
    destruct (find sub l) as [j|]; [|done]. intros [= <-]. simpl.
    specialize (IH j eq_refl). lia.
Qed.

(** No occurrence starts before the index that [find] returns. *)
Lemma find_Some_least sub l i j :
  find sub l = Some i → j < i → startswith sub (drop j l) = false.
Proof.
  revert i j; induction l as [|y l IH]; intros i j; rewrite find_unfold.
  - destruct (startswith sub []); [intros [= <-]; lia | done].
  - destruct (startswith sub (y :: l)) eqn:E; [intros [= <-]; lia |].
    destruct (find sub l) as [k|] eqn:F; [|done]. intros [= <-] Hj.
    destruct j as [|j]; [done|]. simpl. eapply IH; [done | lia].
Qed.

Lemma find_None_startswith sub l j :
  find sub l = None → startswith sub (drop j l) = false.
Proof.
  revert j; induction l as [|y l IH]; intros j; rewrite find_unfold.
  - destruct (startswith sub []) eqn:E; [done|]. intros _. by rewrite drop_nil.
  - destruct (startswith sub (y :: l)) eqn:E; [done|].
    destruct (find sub l) as [k|] eqn:F; [done|]. intros _.
    destruct j as [|j]; [done|]. simpl. by apply IH.
Qed.

(** The characterisation used to compute [find] on a buffer of known shape. *)
Lemma find_intro sub l i :
  startswith sub (drop i l) = true → i ≤ length l →
  (∀ j, j < i → startswith sub (drop j l) = false) →
  find sub l = Some i.
Proof.
  intros Hs Hi Hleast. destruct (find sub l) as [k|] eqn:F.
  - f_equal. destruct (Nat.lt_trichotomy k i) as [Hlt|[->|Hgt]]; [|done|].
    + apply find_Some_startswith in F. rewrite Hleast in F; [done | lia].
    + pose proof (find_Some_least _ _ _ _ F Hgt). congruence.
  - pose proof (find_None_startswith _ _ i F). congruence.
Qed.

(** [find] is stable under appended bytes once it has succeeded. *)
Lemma find_app_Some sub l c i : find sub l = Some i → find sub (l ++ c) = Some i.
Proof.
  intros Hf. apply find_intro.
  - pose proof (find_Some_startswith _ _ _ Hf) as Hs.
    pose proof (find_Some_length _ _ _ Hf) as Hl.
    rewrite drop_app_le by lia. by apply startswith_app_r.
  - pose proof (find_Some_length _ _ _ Hf). rewrite length_app. lia.
  - intros j Hj. pose proof (find_Some_least _ _ _ _ Hf Hj) as Hn.
    pose proof (find_Some_length _ _ _ Hf) as Hl.
    rewrite drop_app_le by lia.
    rewrite startswith_app_long; [done|]. rewrite length_drop. lia.
Qed.

(** An occurrence that appears only after more bytes were appended does
    not lie inside the old buffer. *)
Lemma find_app_None_Some sub l c i :
  find sub l = None → find sub (l ++ c) = Some i → length l < i + length sub.
Proof.
  intros Hn Hs. destruct (decide (length l < i + length sub)) as [|Hge]; [done|].
  exfalso. apply find_Some_startswith in Hs.
  rewrite drop_app_le in Hs by lia.
  rewrite startswith_app_long in Hs by (rewrite length_drop; lia).
  pose proof (find_None_startswith _ _ i Hn). congruence.
Qed.

Lemma find_drop sub l i k :
  find sub l = Some i → k ≤ i → find sub (drop k l) = Some (i - k).
Proof.
  intros Hf Hk. pose proof (find_Some_length _ _ _ Hf) as Hl. apply find_intro.
  - rewrite drop_drop. replace (k + (i - k)) with i by lia.
    by eapply find_Some_startswith.
  - rewrite length_drop. lia.
  - intros j Hj. rewrite drop_drop. eapply find_Some_least; [done | lia].
Qed.

Lemma find_drop_None sub l k : find sub l = None → find sub (drop k l) = None.
Proof.
  intros Hn. destruct (find sub (drop k l)) as [i|] eqn:F; [|done].
  apply find_Some_startswith in F. rewrite drop_drop in F.
  pose proof (find_None_startswith _ _ (k + i) Hn). congruence.
Qed.

Lemma contains_true sub l :
  contains sub l = true ↔ ∃ pre suf, l = pre ++ sub ++ suf.
Proof.
  unfold contains. split.
  - destruct (find sub l) as [i|] eqn:F; [|done]. intros _.
    apply find_Some_startswith, startswith_prefix in F. destruct F as [suf Hs].
    exists (take i l), suf. by rewrite <- Hs, take_drop.
  - intros (pre & suf & ->).
    destruct (find sub (pre ++ sub ++ suf)) as [i|] eqn:F; [done|].
    pose proof (find_None_startswith _ _ (length pre) F) as Hn.
    rewrite drop_app_length, startswith_app in Hn. done.
Qed.

Lemma find_None_intro sub l :
  (∀ j, startswith sub (drop j l) = false) → find sub l = None.
Proof.
  intros Hno. destruct (find sub l) as [i|] eqn:F; [|done].
  apply find_Some_startswith in F. by rewrite Hno in F.
Qed.

Lemma filter_drop_length (P : A → Prop) `{∀ x, Decision (P x)} l k :
  length (filter P (drop k l)) ≤ length (filter P l).
Proof.
  revert k; induction l as [|x l IH]; intros [|k]; simpl; try done.
  rewrite filter_cons. specialize (IH k). destruct (decide (P x)); simpl; lia.
Qed.

Lemma filter_absent (x : A) l : x ∉ l → filter (λ y, y = x) l = [].
Proof.
  induction l as [|y l IH]; [done|]. intros Hx.
  apply not_elem_of_cons in Hx as [Hne Hx].
  rewrite filter_cons. destruct (decide (y = x)); [congruence | by apply IH].
Qed.
End SequenceFacts.

(** * The [while] loop of the decoder *)

Section LoopFacts.
Context (download_dir : str) (open_error : str → option exn) (boundary : bytes).

#[local] Abbreviation loop_body := (loop_body download_dir open_error boundary).
#[local] Abbreviation start_of_part := (start_of_part download_dir open_error).
#[local] Abbreviation middle_of_part := (middle_of_part boundary).
#[local] Abbreviation while_buffer := (while_buffer download_dir open_error boundary).
#[local] Abbreviation run_loop := (run_loop download_dir open_error boundary).
#[local] Abbreviation process_chunk := (process_chunk download_dir open_error boundary).
#[local] Abbreviation for_chunks := (for_chunks download_dir open_error boundary).
#[local] Abbreviation marker := (marker boundary).
#[local] Abbreviation terminal_marker := (terminal_marker boundary).

Lemma marker_length : length marker = 4 + length boundary.
Proof. reflexivity. Qed.

Lemma marker_terminal : startswith marker terminal_marker = true.
Proof.
  apply startswith_prefix. exists (bytes_of "--").
  unfold Client.terminal_marker, Client.marker. by rewrite <- !app_assoc.
Qed.

(** The [elif] of the terminal marker is shadowed by the [if] above it. *)
Lemma terminal_shadowed (l : bytes) :
  startswith marker l = false → startswith terminal_marker l = false.
Proof.
  intros Hm. destruct (startswith terminal_marker l) eqn:Ht; [|done].
  rewrite (startswith_trans _ _ _ marker_terminal Ht) in Hm. done.
Qed.

Lemma buffer_close_current s : buffer (close_current s) = buffer s.
Proof. unfold close_current. by destruct (current_file s). Qed.

Lemma current_file_close_current s : current_file (close_current s) = None.
Proof. unfold close_current. by destruct (current_file s) eqn:E. Qed.

Lemma close_current_idemp s : close_current (close_current s) = close_current s.
Proof.
  unfold close_current at 1. by rewrite current_file_close_current.
Qed.

Lemma start_of_part_close s : start_of_part (close_current s) = start_of_part s.
Proof. unfold Client.start_of_part. by rewrite close_current_idemp. Qed.

(** A pass that reaches the bottom of the loop body has consumed bytes. *)
Lemma loop_body_shortens s s' :
  loop_body s = Ok (Continue s') → length (buffer s') < length (buffer s).
Proof.
  unfold Client.loop_body.
  destruct (startswith marker (buffer s)) eqn:Hm.
  - unfold Client.start_of_part. rewrite buffer_close_current.
    destruct (find CRLFCRLF (buffer s)) as [h|] eqn:Hh; [|done].
    apply find_Some_length in Hh. change (length CRLFCRLF) with 4 in Hh.
    destruct (utf8_decode _); [|done].
    destruct (re_search _ _).
    + unfold file_open. destruct (open_error _); [done|].
      intros [= <-]. simpl. rewrite length_drop. lia.
    + intros [= <-]. simpl. rewrite length_drop. lia.
  - rewrite (terminal_shadowed _ Hm).
    destruct (current_file s) as [path|]; [|done].
    unfold Client.middle_of_part.
    destruct (find marker (buffer s)) as [i|] eqn:Hf.
    + intros [= <-]. simpl. rewrite length_drop.
      pose proof (find_Some_length _ _ _ Hf) as Hl. rewrite marker_length in Hl.
      destruct i as [|i]; [|lia].
      apply find_Some_0 in Hf. congruence.
    + by destruct (0 <? _)%Z.
Qed.

Lemma while_buffer_fuel n m s :
  length (buffer s) ≤ n → length (buffer s) ≤ m → while_buffer n s = while_buffer m s.
Proof.
  revert m s; induction n as [|n IH]; intros [|m] s Hn Hm; simpl.
  - done.
  - destruct (buffer s); [done | simpl in *; lia].
  - destruct (buffer s); [done | simpl in *; lia].
  - destruct (buffer s) as [|b l] eqn:Hb; [done|].
    destruct (loop_body s) as [[s'|s']|e w] eqn:Hs; [|done..].
    apply loop_body_shortens in Hs. rewrite Hb in *. simpl in *. apply IH; lia.
Qed.

(** [run_loop] is the [while] loop: it satisfies the loop's equation. *)
Lemma run_loop_unfold s :
  run_loop s =
  match buffer s with
  | [] => Ok s
  | _ =>
    match loop_body s with
    | Ok (Continue s') => run_loop s'
    | Ok (Break s') => Ok s'
    | Raise e w => Raise e w
    end
  end.
Proof.
  unfold Client.run_loop. destruct (buffer s) as [|b l] eqn:Hb; [done|].
  simpl. rewrite Hb.
  destruct (loop_body s) as [[s'|s']|e w] eqn:Hs; [|done..].
  apply loop_body_shortens in Hs. rewrite Hb in Hs. simpl in Hs.
  apply while_buffer_fuel; lia.
Qed.
End LoopFacts.

(** * Independence of the chunking *)

Lemma file_write_write path d1 d2 w :
  file_write path d2 (file_write path d1 w) = file_write path (d1 ++ d2) w.
Proof.
  unfold file_write; simpl.
  rewrite lookup_insert_eq, insert_insert_eq. simpl. by rewrite app_assoc.
Qed.

Section Chunking.
Context (download_dir : str) (open_error : str → option exn) (boundary : bytes).

#[local] Abbreviation loop_body := (loop_body download_dir open_error boundary).
#[local] Abbreviation start_of_part := (start_of_part download_dir open_error).
#[local] Abbreviation middle_of_part := (middle_of_part boundary).
#[local] Abbreviation run_loop := (run_loop download_dir open_error boundary).
#[local] Abbreviation process_chunk := (process_chunk download_dir open_error boundary).
#[local] Abbreviation for_chunks := (for_chunks download_dir open_error boundary).
#[local] Abbreviation marker := (marker boundary).
#[local] Abbreviation terminal_marker := (terminal_marker boundary).

(** The bytes that [middle_of_part] holds back are enough to hold a marker
    short of its last byte. *)
Hypothesis marker_fits : (Z.of_nat (length marker) ≤ CHUNK_SIZE + 1)%Z.

Lemma extend_close_current c s : close_current (extend c s) = extend c (close_current s).
Proof. unfold close_current. simpl. by destruct (current_file s). Qed.

Lemma start_of_part_extend_Continue s s' c :
  start_of_part s = Ok (Continue s') →
  start_of_part (extend c s) = Ok (Continue (extend c s')).
Proof.
  unfold Client.start_of_part. rewrite extend_close_current.
  destruct (close_current s) as [cur buf tot w]; simpl.
  destruct (find CRLFCRLF buf) as [h|] eqn:Hh; [|done].
  rewrite (find_app_Some _ _ c _ Hh).
  apply find_Some_length in Hh. change (length CRLFCRLF) with 4 in Hh.
  rewrite take_app_le by lia. rewrite drop_app_le by lia.
  destruct (utf8_decode _); [|done].
  destruct (re_search _ _).
  - destruct (file_open _ _ _); [|done]. by intros [= <-].
  - by intros [= <-].
Qed.

Lemma start_of_part_extend_Raise s e w c :
  start_of_part s = Raise e w → start_of_part (extend c s) = Raise e w.
Proof.
  unfold Client.start_of_part. rewrite extend_close_current.
  destruct (close_current s) as [cur buf tot w0]; simpl.
  destruct (find CRLFCRLF buf) as [h|] eqn:Hh; [|done].
  rewrite (find_app_Some _ _ c _ Hh).
  apply find_Some_length in Hh. change (length CRLFCRLF) with 4 in Hh.
  rewrite take_app_le by lia.
  destruct (utf8_decode _); [|done].
  destruct (re_search _ _); [|done].
  by destruct (file_open _ _ _).
Qed.

Lemma middle_of_part_Raise path s e w : middle_of_part path s ≠ Raise e w.
Proof.
  unfold Client.middle_of_part.
  destruct (find _ _); [done|]. by destruct (0 <? _)%Z.
Qed.

Lemma loop_body_extend_Continue s s' c :
  loop_body s = Ok (Continue s') → loop_body (extend c s) = Ok (Continue (extend c s')).
Proof.
  unfold Client.loop_body. cbn [buffer extend set_buffer current_file].
  destruct (startswith marker (buffer s)) eqn:Hm.
  - rewrite (startswith_app_r _ _ c Hm). apply start_of_part_extend_Continue.
  - rewrite (terminal_shadowed _ _ Hm).
    destruct (current_file s) as [path|] eqn:Hcur; [|done].
    unfold Client.middle_of_part. cbn [buffer extend set_buffer current_file tot_bytes outside].
    destruct (find marker (buffer s)) as [i|] eqn:Hf; [|by destruct (0 <? _)%Z].
    pose proof (find_Some_length _ _ _ Hf) as Hl.
    rewrite startswith_app_long, Hm by lia.
    rewrite (terminal_shadowed boundary (buffer s ++ c)); last first.
    { rewrite startswith_app_long by lia. done. }
    rewrite (find_app_Some _ _ c _ Hf).
    rewrite take_app_le by lia. rewrite drop_app_le by lia.
    by intros [= <-].
Qed.

Lemma loop_body_extend_Raise s e w c :
  loop_body s = Raise e w → loop_body (extend c s) = Raise e w.
Proof.
  unfold Client.loop_body. cbn [buffer extend set_buffer current_file].
  destruct (startswith marker (buffer s)) eqn:Hm.
  - rewrite (startswith_app_r _ _ c Hm). apply start_of_part_extend_Raise.
  - rewrite (terminal_shadowed _ _ Hm).
    destruct (current_file s) as [path|] eqn:Hcur; [|done].
    intros []%middle_of_part_Raise.
Qed.

Lemma loop_body_marker s :
  startswith marker (buffer s) = true → loop_body s = start_of_part s.
Proof. unfold Client.loop_body. by intros ->. Qed.

Lemma loop_body_middle s path :
  startswith marker (buffer s) = false → current_file s = Some path →
  loop_body s = middle_of_part path s.
Proof.
  unfold Client.loop_body. intros Hm ->. by rewrite Hm, (terminal_shadowed _ _ Hm).
Qed.

Lemma run_loop_nonempty s :
  buffer s ≠ [] →
  run_loop s = match loop_body s with
               | Ok (Continue s') => run_loop s'
               | Ok (Break s') => Ok s'
               | Raise e w => Raise e w
               end.
Proof. intros Hb. rewrite run_loop_unfold. by destruct (buffer s). Qed.

Lemma nonempty_length {A} (l : list A) : 0 < length l → l ≠ [].
Proof. destruct l; simpl; [lia | done]. Qed.

(** The held-back tail: when [middle_of_part] found no marker and flushed
    the first [k] bytes, the bytes that arrive next are treated as if
    nothing had been flushed yet. *)
Lemma flushed_extend path buf tot w c k :
  find marker buf = None →
  k = Z.to_nat (Z.max 0 (Z.of_nat (length buf) - CHUNK_SIZE)) → 0 < k →
  run_loop (State (Some path) (buf ++ c) tot w)
  = run_loop (State (Some path) (drop k buf ++ c) tot (file_write path (take k buf) w)).
Proof.
  intros Hnone Hk Hpos. unfold CHUNK_SIZE in *.
  assert (Hlen : (Z.of_nat (length buf) = Z.of_nat k + 8192)%Z) by lia.
  assert (Hhead : startswith marker (buf ++ c) = false).
  { rewrite startswith_app_long by lia. apply (find_None_startswith _ _ 0 Hnone). }
  rewrite (run_loop_nonempty (State _ (buf ++ c) _ _)); last first.
  { apply nonempty_length. simpl. rewrite length_app. lia. }
  rewrite (loop_body_middle _ path) by done.
  unfold Client.middle_of_part. cbn [buffer current_file tot_bytes outside].
  rewrite <- (drop_app_le buf c k) by lia.
  rewrite <- (take_app_le buf c k) by lia.
  destruct (find marker (buf ++ c)) as [i|] eqn:Hf.
  - pose proof (find_app_None_Some _ _ _ _ Hnone Hf) as Hin.
    destruct (decide (i = k)) as [->|Hne]; [done|].
    assert (k < i) by lia.
    rewrite (run_loop_nonempty (State _ (drop k (buf ++ c)) _ _)); last first.
    { apply nonempty_length. simpl. rewrite length_drop, length_app. lia. }
    rewrite (loop_body_middle _ path); [|by eapply find_Some_least|done].
    unfold Client.middle_of_part. cbn [buffer current_file tot_bytes outside].
    rewrite (find_drop _ _ i k Hf) by lia.
    rewrite drop_drop, file_write_write, take_take_drop.
    by replace (k + (i - k)) with i by lia.
  - rewrite (run_loop_nonempty (State _ (drop k (buf ++ c)) _ _)); last first.
    { apply nonempty_length. simpl. rewrite length_drop, length_app. lia. }
    rewrite (loop_body_middle _ path); [|by apply find_None_startswith|done].
    unfold Client.middle_of_part. cbn [buffer current_file tot_bytes outside].
    rewrite (find_drop_None _ _ k Hf).
    rewrite length_drop, !length_app. unfold CHUNK_SIZE.
    destruct c as [|b c].
    + simpl. rewrite !app_nil_r.
      replace (0 <? Z.max 0 (Z.of_nat (length buf + 0 - k) - 8192))%Z with false by (symmetry; apply Z.ltb_ge; lia).
      replace (0 <? Z.max 0 (Z.of_nat (length buf + 0) - 8192))%Z with true by (symmetry; apply Z.ltb_lt; lia).
      replace (Z.to_nat (Z.max 0 (Z.of_nat (length buf + 0) - 8192))) with k by lia.
      done.
    + set (n := length (b :: c)). assert (0 < n) by (unfold n; simpl; lia).
      replace (0 <? Z.max 0 (Z.of_nat (length buf + n - k) - 8192))%Z with true by (symmetry; apply Z.ltb_lt; lia).
      replace (0 <? Z.max 0 (Z.of_nat (length buf + n) - 8192))%Z with true by (symmetry; apply Z.ltb_lt; lia).
      replace (Z.to_nat (Z.max 0 (Z.of_nat (length buf + n - k) - 8192))) with n by lia.
      replace (Z.to_nat (Z.max 0 (Z.of_nat (length buf + n) - 8192))) with (k + n) by lia.
      by rewrite drop_drop, file_write_write, take_take_drop.
Qed.

Lemma loop_body_extend_Break s s' c :
  loop_body s = Ok (Break s') → run_loop (extend c s) = run_loop (extend c s').
Proof.
  destruct (startswith marker (buffer s)) eqn:Hm.
  - rewrite loop_body_marker by done. intros Hs.
    assert (s' = close_current s) as ->.
    { revert Hs. unfold Client.start_of_part.
      destruct (find _ _); [|congruence].
      destruct (utf8_decode _); [|done].
      destruct (re_search _ _); [|done]. by destruct (file_open _ _ _). }
    destruct (buffer s) as [|b l] eqn:Hb; [done|].
    rewrite !run_loop_nonempty.
    + rewrite !loop_body_marker.
      * by rewrite <- extend_close_current, start_of_part_close.
      * cbn [buffer extend set_buffer]. rewrite buffer_close_current.
        apply startswith_app_r. by rewrite Hb.
      * cbn [buffer extend set_buffer]. apply startswith_app_r. by rewrite Hb.
    + cbn [buffer extend set_buffer]. rewrite buffer_close_current, Hb. done.
    + cbn [buffer extend set_buffer]. rewrite Hb. done.
  - destruct (current_file s) as [path|] eqn:Hcur.
    + rewrite (loop_body_middle _ path) by done.
      unfold Client.middle_of_part.
      destruct (find marker (buffer s)) as [i|] eqn:Hf; [done|].
      destruct (0 <? _)%Z eqn:Hsafe; intros [= <-]; [|done].
      destruct s as [cur buf tot w]. simpl in *. subst cur.
      unfold extend, set_buffer. cbn [buffer current_file tot_bytes outside].
      apply flushed_extend; [done | done | lia].
    + unfold Client.loop_body. rewrite Hm, (terminal_shadowed _ _ Hm), Hcur.
      by intros [= <-].
Qed.

(** Feeding the loop a buffer in two instalments gives what feeding it at
    once gives. *)
Lemma run_loop_extend s c :
  run_loop (extend c s) = bind (run_loop s) (λ s', run_loop (extend c s')).
Proof.
  remember (length (buffer s)) as n eqn:Hn. revert s Hn.
  induction n as [n IH] using lt_wf_ind. intros s ->.
  rewrite (run_loop_unfold _ _ _ s).
  destruct (buffer s) as [|b l] eqn:Hb; [done|].
  destruct (loop_body s) as [[s'|s']|e w] eqn:Hs.
  - rewrite run_loop_nonempty.
    + rewrite (loop_body_extend_Continue _ _ _ Hs).
      eapply IH; [|done]. apply loop_body_shortens in Hs. by rewrite Hb in Hs.
    + cbn [buffer extend set_buffer]. by rewrite Hb.
  - by apply loop_body_extend_Break.
  - rewrite run_loop_nonempty.
    + by rewrite (loop_body_extend_Raise _ _ _ _ Hs).
    + cbn [buffer extend set_buffer]. by rewrite Hb.
Qed.

Lemma extend_app c1 c2 s : extend c2 (extend c1 s) = extend (c1 ++ c2) s.
Proof. unfold extend, set_buffer. simpl. by rewrite app_assoc. Qed.

(** [tot_bytes] is only counted, never read by the loop. *)
Lemma loop_body_count d s :
  loop_body (count_bytes d s)
  = match loop_body s with
    | Ok (Continue s') => Ok (Continue (count_bytes d s'))
    | Ok (Break s') => Ok (Break (count_bytes d s'))
    | Raise e w => Raise e w
    end.
Proof.
  destruct s as [cur buf tot w].
  unfold Client.loop_body, Client.start_of_part, end_of_all_parts,
    Client.middle_of_part, close_current, count_bytes, set_buffer, set_outside.
  cbn [buffer current_file tot_bytes outside].
  destruct (startswith marker buf).
  - destruct cur; cbn [buffer current_file tot_bytes outside];
      (destruct (find CRLFCRLF buf); [|done]);
      (destruct (utf8_decode _); [|done]);
      (destruct (re_search _ _); [|done]);
      by destruct (file_open _ _ _).
  - destruct (startswith terminal_marker buf); [by destruct cur|].
    destruct cur; [|done].
    destruct (find marker buf); [done|]. by destruct (0 <? _)%Z.
Qed.

Lemma while_buffer_count d n s :
  while_buffer download_dir open_error boundary n (count_bytes d s)
  = bind (while_buffer download_dir open_error boundary n s) (λ s', Ok (count_bytes d s')).
Proof.
  revert s; induction n as [|n IH]; intros s; [done|].
  cbn [Client.while_buffer]. rewrite loop_body_count.
  change (buffer (count_bytes d s)) with (buffer s).
  destruct (buffer s); [done|].
  destruct (loop_body s) as [[s'|s']|e w]; [apply IH|done..].
Qed.

Lemma run_loop_count d s :
  run_loop (count_bytes d s) = bind (run_loop s) (λ s', Ok (count_bytes d s')).
Proof. apply while_buffer_count. Qed.

Lemma bind_assoc {A B C} (r : result A) (f : A → result B) (g : B → result C) :
  bind (bind r f) g = bind r (λ a, bind (f a) g).
Proof. by destruct r. Qed.

Lemma bind_ext {A B} (r : result A) (f g : A → result B) :
  (∀ a, f a = g a) → bind r f = bind r g.
Proof. intros Hfg. destruct r; [apply Hfg | done]. Qed.

Lemma count_bytes_0 s : count_bytes 0 s = s.
Proof. destruct s. unfold count_bytes; simpl. by rewrite Z.add_0_r. Qed.

(** Two chunks in a row are processed like their concatenation. *)
Lemma process_chunk_app s c1 c2 :
  bind (process_chunk s c1) (λ s', process_chunk s' c2) = process_chunk s (c1 ++ c2).
Proof.
  destruct c1 as [|b1 c1].
  { cbn [Client.process_chunk bind app length]. by rewrite count_bytes_0. }
  destruct c2 as [|b2 c2].
  { rewrite app_nil_r. rewrite <- (bind_ext _ (λ s', Ok s')).
    - by destruct (process_chunk s (b1 :: c1)).
    - intros s'. cbn [Client.process_chunk length]. by rewrite count_bytes_0. }
  set (d1 := Z.of_nat (length (b1 :: c1))). set (d2 := Z.of_nat (length (b2 :: c2))).
  change (process_chunk s (b1 :: c1)) with (run_loop (extend (b1 :: c1) (count_bytes d1 s))).
  rewrite (bind_ext _ _ (λ s', bind (run_loop (extend (b2 :: c2) s')) (λ s'', Ok (count_bytes d2 s'')))).
  2:{ intros s'. rewrite <- run_loop_count. done. }
  rewrite <- bind_assoc, <- run_loop_extend, <- run_loop_count, extend_app.
  change (process_chunk s ((b1 :: c1) ++ b2 :: c2))
    with (run_loop (extend ((b1 :: c1) ++ b2 :: c2)
                           (count_bytes (Z.of_nat (length ((b1 :: c1) ++ b2 :: c2))) s))).
  f_equal. destruct s as [cur buf tot w].
  unfold extend, set_buffer, count_bytes. cbn [buffer current_file tot_bytes outside].
  f_equal. rewrite length_app. unfold d1, d2. lia.
Qed.

(** The decoder's state after a sequence of chunks depends only on the
    bytes that the chunks carry. *)
Lemma for_chunks_concat cs s : for_chunks s cs = process_chunk s (concat cs).
Proof.
  revert s; induction cs as [|c cs IH]; intros s.
  - cbn [Client.for_chunks concat Client.process_chunk length]. by rewrite count_bytes_0.
  - cbn [Client.for_chunks concat]. rewrite <- process_chunk_app. by apply bind_ext.
Qed.
End Chunking.


(** * One pass over a whole well-formed stream *)

Section SingleShot.
Context (download_dir : str) (open_error : str → option exn) (boundary : bytes).

#[local] Abbreviation loop_body := (loop_body download_dir open_error boundary).
#[local] Abbreviation start_of_part := (start_of_part download_dir open_error).
#[local] Abbreviation middle_of_part := (middle_of_part boundary).
#[local] Abbreviation run_loop := (run_loop download_dir open_error boundary).
#[local] Abbreviation marker := (marker boundary).
#[local] Abbreviation terminal_marker := (terminal_marker boundary).

Lemma blank_line_two_LF (l : bytes) :
  startswith CRLFCRLF l = true → 2 ≤ length (filter (λ b, b = LF) l).
Proof.
  intros [l' ->]%startswith_prefix.
  change (CRLFCRLF ++ l') with (CR :: LF :: CR :: LF :: l').
  rewrite !filter_cons. unfold CR, LF.
  repeat case_decide; try discriminate; try congruence; simpl; lia.
Qed.

(** Nothing after the terminal marker of a well-formed stream looks like
    the end of a header block. *)
Lemma terminal_no_blank_line epilogue :
  LF ∉ boundary → epilogue = [] ∨ epilogue = CRLF →
  find CRLFCRLF (terminal_marker ++ epilogue) = None.
Proof.
  intros HLF Hepi. apply find_None_intro. intros j.
  destruct (startswith CRLFCRLF _) eqn:Hs; [|done]. exfalso.
  unfold Client.terminal_marker in Hs.
  destruct j as [|[|j]]; [done | done |].
  change (drop (S (S j)) ((CRLF ++ bytes_of "--" ++ boundary ++ bytes_of "--") ++ epilogue))
    with (drop j ((bytes_of "--" ++ boundary ++ bytes_of "--") ++ epilogue)) in Hs.
  apply blank_line_two_LF in Hs.
  pose proof (filter_drop_length (λ b, b = LF)
                ((bytes_of "--" ++ boundary ++ bytes_of "--") ++ epilogue) j) as Hle.
  set (n := length (filter _ (drop j _))) in *. clearbody n.
  rewrite !filter_app, !length_app, (filter_absent LF boundary HLF) in Hle.
  destruct Hepi as [-> | ->]; simpl in Hle; lia.
Qed.

Lemma run_loop_reference fuel :
  LF ∉ boundary →
  ∀ stream parts current tot w,
    reference_parts boundary fuel stream = Some parts →
    (∀ part, part ∈ parts → open_error (path_join download_dir part.1) = None) →
    ∃ rest,
      run_loop (State current stream tot w)
      = Ok (State None rest tot (after_parts download_dir current parts w))
      ∧ startswith terminal_marker rest = true.
Proof.
  intros HLF. induction fuel as [|fuel IH]; intros stream parts current tot w; [done|].
  cbn [reference_parts].
  destruct (startswith terminal_marker stream) eqn:Hterm.
  - (* the terminal marker: the loop takes it for the start of a part *)
    destruct (_ || _) eqn:Hepi; [|done]. intros [= <-] _.
    assert (Hm : startswith marker stream = true)
      by (eapply startswith_trans; [apply marker_terminal | done]).
    assert (Hnone : find CRLFCRLF stream = None).
    { pose proof (startswith_take _ _ Hterm) as Ht.
      rewrite <- (take_drop (length terminal_marker) stream), Ht.
      apply terminal_no_blank_line; [done|].
      apply orb_true_iff in Hepi as [?%bool_decide_eq_true | ?%bool_decide_eq_true]; auto. }
    exists stream. split; [|done].
    rewrite run_loop_nonempty, loop_body_marker by (try done; by destruct stream).
    unfold Client.start_of_part. rewrite buffer_close_current.
    cbn [buffer]. rewrite Hnone. f_equal.
    unfold close_current, after_parts, file_close, reference_files. simpl.
    destruct current, w; simpl; by rewrite ?app_nil_r.
  - destruct (startswith marker stream) eqn:Hm; [|done].
    destruct (find CRLFCRLF stream) as [h|] eqn:Hh; [|done].
    unfold declared_name.
    destruct (utf8_decode (take h stream)) as [headers|] eqn:Hdec; [|done]. simpl.
    destruct (re_search part_name_re headers) as [name|] eqn:Hname; [|done].
    set (body := drop (h + 4) stream).
    destruct (find marker body) as [i|] eqn:Hi; [|done].
    destruct (reference_parts boundary fuel (drop i body)) as [ps|] eqn:Hps; [|done].
    simpl. intros [= <-] Hopen.
    set (path := path_join download_dir name).
    assert (Hpath : open_error path = None).
    { apply (Hopen (name, take i body)). apply list_elem_of_here. }
    set (w1 := World (<[path := take i body]> (disk w)) (opened w ++ [path])
                     (closed w ++ option_list current) (stdout w)).
    destruct (IH (drop i body) ps (Some path) tot w1 Hps) as (rest & Hrun & Hrest).
    { intros part Hpart. apply Hopen. by apply list_elem_of_further. }
    exists rest. split; [|done].
    (* the header block *)
    rewrite run_loop_nonempty, loop_body_marker by (try done; by destruct stream).
    unfold Client.start_of_part. rewrite buffer_close_current.
    cbn [buffer]. rewrite Hh, Hdec, Hname.
    unfold file_open. fold path. rewrite Hpath. fold body.
    assert (Hclose : outside (close_current (State current stream tot w))
                     = World (disk w) (opened w) (closed w ++ option_list current) (stdout w)).
    { unfold close_current. destruct current; simpl; [done|]. rewrite app_nil_r. by destruct w. }
    assert (Htot : tot_bytes (close_current (State current stream tot w)) = tot).
    { unfold close_current. by destruct current. }
    rewrite Hclose, Htot. cbn [disk opened closed stdout].
    (* the payload *)
    pose proof (find_Some_length _ _ _ Hi) as Hlen. rewrite marker_length in Hlen.
    assert (Hafter : after_parts download_dir (Some path) ps w1
                     = after_parts download_dir current ((name, take i body) :: ps) w).
    { unfold after_parts, reference_files, w1. simpl. fold path.
      by rewrite <- !app_assoc. }
    destruct i as [|i].
    + (* an empty payload: the next marker follows the header block *)
      subst w1. rewrite drop_0 in Hrun. rewrite take_0 in Hrun, Hafter.
      rewrite Hrun. by rewrite Hafter.
    + assert (Hhead : startswith marker body = false).
      { destruct (startswith marker body) eqn:E; [|done].
        apply find_Some_0 in E. congruence. }
      rewrite run_loop_nonempty; last first.
      { intros Hnil. cbn [buffer] in Hnil. rewrite Hnil in Hlen. simpl in Hlen. lia. }
      rewrite (loop_body_middle _ _ _ _ path) by done.
      unfold Client.middle_of_part. cbn [buffer tot_bytes outside]. rewrite Hi.
      unfold file_write. cbn [disk opened closed stdout].
      rewrite lookup_insert_eq, insert_insert_eq. cbn [default from_option id app].
      fold w1. rewrite Hrun. by rewrite Hafter.
Qed.
End SingleShot.

(** * The decoder against the reference parse *)


Lemma chunks_taken_all download_dir open_error boundary cs s s' :
  for_chunks download_dir open_error boundary s cs = Ok s' →
  chunks_taken download_dir open_error boundary s cs = length cs.
Proof.
  revert s; induction cs as [|c cs IH]; intros s; [done|].
  cbn [for_chunks chunks_taken length].
  destruct (process_chunk _ _ _ s c) as [s1|]; [|done]. simpl.
  intros Hs. f_equal. by apply IH.
Qed.

Lemma reference_parse_nonempty boundary stream parts :
  reference_parse boundary stream = Some parts → stream ≠ [].
Proof. by intros Hp ->. Qed.

(** C1. For every well-formed multipart stream (one that the reference
    single-shot parse accepts, with a boundary short enough for the bytes
    that the decoder holds back) and every way of cutting it into chunks,
    chunks of one byte and cuts inside a marker included, the decoder
    leaves exactly the files of the reference parse: each payload is
    written once, in full, and every file is closed. *)
Theorem chunked_decode_matches_reference_parse
    (download_dir : str) (open_error : str → option exn)
    (status : N) (content_type : str) (disposition : option str)
    (boundary : bytes) (chunk_list : list bytes) (parts : list (str * bytes)) (w : world) :
  extract_boundary content_type w = Ok boundary →
  (Z.of_nat (length boundary) + 3 ≤ CHUNK_SIZE)%Z →
  LF ∉ boundary →
  reference_parse boundary (concat chunk_list) = Some parts →
  (∀ part, part ∈ parts → open_error (path_join download_dir part.1) = None) →
  handle_multipart_response download_dir open_error
    (Response status (Some content_type) disposition (Source chunk_list None)) w
  = (Ok (after_parts download_dir None parts w), length chunk_list).
Proof.
  intros Hb Hfit HLF Hparse Hopen.
  assert (Hmf : (Z.of_nat (length (marker boundary)) ≤ CHUNK_SIZE + 1)%Z).
  { rewrite marker_length. lia. }
  destruct (run_loop_reference download_dir open_error boundary (length (concat chunk_list))
              HLF (concat chunk_list) parts None
              (0 + Z.of_nat (length (concat chunk_list)))%Z w Hparse Hopen)
    as (rest & Hrun & _).
  assert (Hfor : for_chunks download_dir open_error boundary (initial w) chunk_list
                 = Ok (State None rest (0 + Z.of_nat (length (concat chunk_list))) 
                             (after_parts download_dir None parts w))).
  { rewrite for_chunks_concat by done. rewrite <- Hrun.
    pose proof (reference_parse_nonempty _ _ _ Hparse) as Hne.
    unfold process_chunk. by destruct (concat chunk_list). }
  unfold handle_multipart_response. cbn [content_type_header default from_option id body chunks failure].
  rewrite Hb, Hfor. cbn [bind end_of_source outside].
  f_equal. by eapply chunks_taken_all.
Qed.

Lemma chunked_decode_matches_reference_parse_witness :
  handle_multipart_response Sample.out Sample.can_open
    (Sample.multipart Sample.multipart_mixed (Sample.bytewise Sample.two_parts))
    Sample.empty_world
  = (Ok (after_parts Sample.out None
           [(str_of "f", bytes_of "hi"); (str_of "g", bytes_of "world")] Sample.empty_world),
     length (Sample.bytewise Sample.two_parts)).
Proof.
  apply (chunked_decode_matches_reference_parse Sample.out Sample.can_open 200
           Sample.multipart_mixed None (bytes_of "B")).
  - vm_compute. reflexivity.
  - vm_compute. discriminate.
  - intros Hin. apply list_elem_of_singleton in Hin. discriminate.
  - vm_compute. reflexivity.
  - reflexivity.
Defined.

(** The bound on the boundary in C1 is needed. With a marker of
    [CHUNK_SIZE + 2] bytes, a chunk that ends one byte before the end of
    the marker makes the decoder flush the first byte of the marker into
    the file; the marker is never recognised, and the file is left open
    with bytes of the marker in it. *)
Lemma marker_longer_than_tail_is_cut :
  reference_parse Sample.long_boundary (Sample.cut_first ++ Sample.cut_second)
  = Some [(str_of "f", bytes_of "x")]
  ∧ ∃ s, for_chunks Sample.out Sample.can_open Sample.long_boundary
           (initial Sample.empty_world) [Sample.cut_first; Sample.cut_second] = Ok s
         ∧ current_file s = Some (str_of "out/f")
         ∧ disk (outside s) !! str_of "out/f" = Some (bytes_of "x" ++ CRLF ++ bytes_of "--")
         ∧ closed (outside s) = [].
Proof.
  split; [vm_compute; reflexivity|].
  eexists. split; [vm_compute; reflexivity|].
  split; [reflexivity|]. split; vm_compute; reflexivity.
Qed.

(** * Facts about the patterns *)

(** A pattern that begins with literal text matches where the text is. *)
Lemma match_here_literal text pattern s :
  match_here (literal text ++ pattern) s
  = if startswith text s then match_here pattern (drop (length text) s) else None.
Proof.
  revert s; induction text as [|c text IH]; intros s; [done|].
  cbn [literal fmap list_fmap app match_here accepts times captured].
  destruct s as [|x s]; [done|]. cbn [repeat_match startswith length drop].
  destruct (N.eqb_spec c x) as [->|Hne].
  - rewrite bool_decide_eq_true_2 by done.
    specialize (IH s). unfold literal in IH. rewrite IH.
    by destruct (startswith text s); [destruct (match_here pattern _)|].
  - by rewrite bool_decide_eq_false_2.
Qed.

Lemma re_search_None pattern s :
  (∀ j, match_here pattern (drop j s) = None) → re_search pattern s = None.
Proof.
  induction s as [|x s IH]; intros Hno; cbn [re_search].
  - pose proof (Hno 0) as H0. cbn [drop] in H0. by rewrite H0.
  - pose proof (Hno 0) as H0. cbn [drop] in H0. rewrite H0.
    apply IH. intros j. apply (Hno (S j)).
Qed.

Lemma re_search_Some pattern s group :
  re_search pattern s = Some group →
  ∃ j, j ≤ length s ∧ match_here pattern (drop j s) = Some group
       ∧ ∀ i, i < j → match_here pattern (drop i s) = None.
Proof.
  revert group; induction s as [|x s IH]; intros group; cbn [re_search].
  - destruct (match_here pattern []) eqn:E; [|done]. intros [= <-].
    exists 0. split; [done|]. split; [done|]. lia.
  - destruct (match_here pattern (x :: s)) eqn:E.
    + intros [= <-]. exists 0. split; [simpl; lia|]. split; [done|]. lia.
    + intros (j & Hj & Hm & Hleast)%IH. exists (S j). split; [simpl; lia|].
      split; [done|]. intros [|i] Hi; [done|]. apply Hleast. lia.
Qed.

(** Without the literal text with which a pattern begins, no match. *)
Lemma re_search_literal_absent text pattern s :
  contains text s = false → re_search (literal text ++ pattern) s = None.
Proof.
  unfold contains. destruct (find text s) eqn:Hf; [done|]. intros _.
  apply re_search_None. intros j.
  by rewrite match_here_literal, (find_None_startswith _ _ j Hf).
Qed.

(** A greedy repetition before the end of the pattern takes the longest
    run of accepted characters. *)
Lemma star_longest {R} accept (r : R) s :
  ∃ run rest, star accept (λ _, Some r) s = Some (run, r) ∧ s = run ++ rest
              ∧ Forall (λ c, accept c = true) run
              ∧ (rest = [] ∨ ∃ c rest', rest = c :: rest' ∧ accept c = false).
Proof.
  induction s as [|c s (run & rest & Hstar & -> & Hrun & Hrest)]; cbn [star].
  - exists [], []. auto.
  - destruct (accept c) eqn:Hc.
    + rewrite Hstar. exists (c :: run), rest. auto.
    + exists [], (c :: run ++ rest). repeat split; eauto.
Qed.

(** The text that [boundary_re] captures: what follows the first
    [boundary=], up to the end of the line. *)
Lemma boundary_re_group content_type group :
  re_search boundary_re content_type = Some group →
  ∃ before after,
    content_type = before ++ str_of "boundary=" ++ group ++ after
    ∧ find (str_of "boundary=") content_type = Some (length before)
    ∧ Forall (λ c, c ≠ 10%N) group
    ∧ (after = [] ∨ ∃ after', after = 10%N :: after').
Proof.
  intros (j & Hj & Hm & Hleast)%re_search_Some.
  unfold boundary_re in *. rewrite match_here_literal in Hm.
  destruct (startswith _ (drop j content_type)) eqn:Hs; [|done].
  cbn [match_here accepts times captured repeat_match] in Hm.
  destruct (star_longest dot ([] : str) (drop (length (str_of "boundary=")) (drop j content_type)))
    as (run & rest & Hstar & Hsplit & Hrun & Hrest).
  change (match_here []) with (λ _ : str, Some ([] : str)) in Hm.
  rewrite Hstar in Hm. injection Hm as <-.
  exists (take j content_type), rest. split; [|split; [|split]].
  - rewrite <- Hsplit.
    pose proof (startswith_take _ _ Hs) as Ht.
    rewrite <- Ht at 1. rewrite take_drop. by rewrite take_drop.
  - rewrite length_take_le by done. apply find_intro; [done | done |].
    intros i Hi. specialize (Hleast i Hi). rewrite match_here_literal in Hleast.
    destruct (startswith _ (drop i content_type)); [|done].
    cbn [match_here accepts times captured repeat_match] in Hleast.
    destruct (star_longest dot ([] : str) (drop (length (str_of "boundary=")) (drop i content_type)))
      as (? & ? & Hstar' & _).
    change (match_here []) with (λ _ : str, Some ([] : str)) in Hleast.
    by rewrite Hstar' in Hleast.
  - eapply Forall_impl; [done|]. intros c. unfold dot.
    destruct (N.eqb_spec c 10); [done | done].
  - destruct Hrest as [->|(c & rest' & -> & Hc)]; [by left | right].
    exists rest'. unfold dot in Hc. destruct (N.eqb_spec c 10); [by subst | done].
Qed.

(** * Invariants of the decoder *)

Section Invariants.
Context (download_dir : str) (open_error : str → option exn) (boundary : bytes).

#[local] Abbreviation loop_body := (loop_body download_dir open_error boundary).
#[local] Abbreviation start_of_part := (start_of_part download_dir open_error).
#[local] Abbreviation middle_of_part := (middle_of_part boundary).
#[local] Abbreviation while_buffer := (while_buffer download_dir open_error boundary).
#[local] Abbreviation run_loop := (run_loop download_dir open_error boundary).
#[local] Abbreviation process_chunk := (process_chunk download_dir open_error boundary).
#[local] Abbreviation for_chunks := (for_chunks download_dir open_error boundary).
#[local] Abbreviation marker := (marker boundary).
#[local] Abbreviation terminal_marker := (terminal_marker boundary).

(** A property of the state that every way out of the loop body keeps is
    kept by the loops around it. *)
Lemma run_loop_preserves (P : state → Prop) :
  (∀ s s', P s → loop_body s = Ok (Continue s') → P s') →
  (∀ s s', P s → loop_body s = Ok (Break s') → P s') →
  ∀ s s', P s → run_loop s = Ok s' → P s'.
Proof.
  intros Hcont Hbreak s. unfold Client.run_loop.
  generalize (length (buffer s)) as n. intros n; revert s.
  induction n as [|n IH]; intros s s' HP; cbn [Client.while_buffer].
  - by intros [= <-].
  - destruct (buffer s); [by intros [= <-]|].
    destruct (loop_body s) as [[s1|s1]|e w] eqn:Hs; [| |done].
    + apply IH. by eapply Hcont.
    + intros [= <-]. by eapply Hbreak.
Qed.

Lemma for_chunks_preserves (P : state → Prop) :
  (∀ s s', P s → loop_body s = Ok (Continue s') → P s') →
  (∀ s s', P s → loop_body s = Ok (Break s') → P s') →
  (∀ s c, P s → P (extend c s)) →
  (∀ s n, P s → P (count_bytes n s)) →
  ∀ cs s s', P s → for_chunks s cs = Ok s' → P s'.
Proof.
  intros Hcont Hbreak Hext Hcount cs.
  induction cs as [|c cs IH]; intros s s' HP; cbn [Client.for_chunks].
  - by intros [= <-].
  - destruct (process_chunk s c) as [s1|] eqn:Hs1; [|done]. cbn [bind].
    apply IH. revert Hs1. unfold Client.process_chunk. destruct c as [|b c].
    + intros [= <-]. by apply Hcount.
    + apply (run_loop_preserves P Hcont Hbreak). by apply Hext, Hcount.
Qed.

Lemma balanced_close_current s : balanced s → balanced (close_current s).
Proof.
  unfold balanced, close_current. destruct (current_file s) eqn:Hcur; simpl.
  - intros ->. by rewrite app_nil_r.
  - by rewrite Hcur.
Qed.

Lemma loop_body_balanced s c :
  balanced s → loop_body s = Ok c →
  match c with Continue s' | Break s' => balanced s' end.
Proof.
  intros Hs. unfold Client.loop_body.
  destruct (startswith marker (buffer s)) eqn:Hm.
  - apply balanced_close_current in Hs. unfold Client.start_of_part.
    pose proof (current_file_close_current s) as Hcur.
    destruct (close_current s) as [cur buf tot w]. unfold balanced in Hs.
    simpl in *. subst cur.
    destruct (find CRLFCRLF buf); [|by intros [= <-]].
    destruct (utf8_decode _); [|done].
    destruct (re_search _ _); [|by intros [= <-]].
    unfold file_open. destruct (open_error _); [done|]. intros [= <-].
    unfold balanced. simpl. rewrite Hs. by rewrite !app_nil_r.
  - rewrite (terminal_shadowed _ _ Hm).
    destruct (current_file s) as [path|] eqn:Hcur; [|by intros [= <-]].
    unfold Client.middle_of_part. unfold balanced in *.
    destruct (find _ _).
    + intros [= <-]. simpl. by rewrite Hs, Hcur.
    + destruct (0 <? _)%Z; intros [= <-]; simpl; by rewrite Hs, Hcur.
Qed.

Lemma for_chunks_balanced cs s s' : balanced s → for_chunks s cs = Ok s' → balanced s'.
Proof.
  apply (for_chunks_preserves balanced); try done.
  - intros s0 s1 H0 Hb. apply (loop_body_balanced _ _ H0 Hb).
  - intros s0 s1 H0 Hb. apply (loop_body_balanced _ _ H0 Hb).
Qed.

Lemma loop_body_Break_bounded s s' : loop_body s = Ok (Break s') → tail_bounded s'.
Proof.
  unfold Client.loop_body.
  destruct (startswith marker (buffer s)) eqn:Hm.
  - unfold Client.start_of_part. pose proof (current_file_close_current s) as Hcur.
    destruct (find _ _).
    + destruct (utf8_decode _); [|done].
      destruct (re_search _ _); [|done]. by destruct (file_open _ _ _).
    + intros [= <-] [p Hp]. congruence.
  - rewrite (terminal_shadowed _ _ Hm).
    destruct (current_file s) as [path|] eqn:Hcur.
    + unfold Client.middle_of_part. destruct (find _ _); [done|].
      destruct (0 <? _)%Z eqn:Hsafe; intros [= <-] _.
      * simpl. rewrite length_drop. apply Z.ltb_lt in Hsafe. unfold CHUNK_SIZE in *. lia.
      * apply Z.ltb_ge in Hsafe. unfold CHUNK_SIZE in *. lia.
    + intros [= <-] [p Hp]. congruence.
Qed.

Lemma run_loop_bounded s s' : run_loop s = Ok s' → tail_bounded s'.
Proof.
  remember (length (buffer s)) as n eqn:Hn. revert s Hn.
  induction n as [n IH] using lt_wf_ind. intros s ->.
  rewrite run_loop_unfold. destruct (buffer s) eqn:Hb.
  - intros [= <-] _. rewrite Hb. unfold CHUNK_SIZE. simpl. lia.
  - destruct (loop_body s) as [[s1|s1]|e w] eqn:Hs1; [| |done].
    + eapply IH; [|done]. apply loop_body_shortens in Hs1. by rewrite Hb in Hs1.
    + intros [= <-]. by eapply loop_body_Break_bounded.
Qed.

Lemma for_chunks_bounded cs s s' :
  tail_bounded s → for_chunks s cs = Ok s' → tail_bounded s'.
Proof.
  revert s; induction cs as [|c cs IH]; intros s Hs; cbn [Client.for_chunks].
  - by intros [= <-].
  - destruct (process_chunk s c) as [s1|] eqn:Hs1; [|done]. cbn [bind].
    apply IH. revert Hs1. unfold Client.process_chunk. destruct c as [|b c].
    + by intros [= <-].
    + apply run_loop_bounded.
Qed.
(** The decoder prints nothing: the only [print] of the function is in
    the branch of the terminal marker, which is never taken. *)
Lemma loop_body_prints_nothing s c :
  loop_body s = Ok c →
  match c with Continue s' | Break s' => stdout (outside s') = stdout (outside s) end.
Proof.
  unfold Client.loop_body.
  destruct (startswith marker (buffer s)) eqn:Hm.
  - unfold Client.start_of_part.
    assert (Hout : stdout (outside (close_current s)) = stdout (outside s)).
    { unfold close_current. by destruct (current_file s). }
    destruct (find _ _); [|by intros [= <-]].
    destruct (utf8_decode _); [|done].
    destruct (re_search _ _); [|by intros [= <-]].
    unfold file_open. destruct (open_error _); [done|]. by intros [= <-].
  - rewrite (terminal_shadowed _ _ Hm).
    destruct (current_file s) as [path|]; [|by intros [= <-]].
    unfold Client.middle_of_part. destruct (find _ _); [by intros [= <-]|].
    by destruct (0 <? _)%Z; intros [= <-].
Qed.

Lemma done_is_never_printed cs w s :
  for_chunks (initial w) cs = Ok s → stdout (outside s) = stdout w.
Proof.
  apply (for_chunks_preserves (λ s, stdout (outside s) = stdout w)); try done.
  - intros s0 s1 H0 Hb. apply loop_body_prints_nothing in Hb. congruence.
  - intros s0 s1 H0 Hb. apply loop_body_prints_nothing in Hb. congruence.
Qed.
End Invariants.

(** * What the decoder does at the end of the input *)

(** C2 as the code has it. The end of the chunks is not an error for the
    decoder, whether or not a terminal marker came: when no chunk raised
    an error it returns normally, and the files are as the last chunk left
    them. A stream that ends right after a start marker and its header
    block, however it is cut into chunks, returns normally and leaves an
    empty file for the part. *)
Theorem exhausted_source_returns_normally
    (download_dir : str) (open_error : str → option exn)
    (status : N) (content_type : str) (disposition : option str)
    (boundary : bytes) (w : world) :
  extract_boundary content_type w = Ok boundary →
  (∀ chunk_list s,
     for_chunks download_dir open_error boundary (initial w) chunk_list = Ok s →
     ∃ w',
       handle_multipart_response download_dir open_error
         (Response status (Some content_type) disposition (Source chunk_list None)) w
       = (Ok w', length chunk_list)
       ∧ disk w' = disk (outside s)
       ∧ opened w' = opened (outside s)
       ∧ stdout w' = stdout (outside s))
  ∧ (∀ chunk_list headers name,
       let stream := concat chunk_list in
       let path := path_join download_dir name in
       (Z.of_nat (length boundary) + 3 ≤ CHUNK_SIZE)%Z →
       startswith (marker boundary) stream = true →
       find CRLFCRLF stream = Some (length stream - 4) →
       utf8_decode (take (length stream - 4) stream) = Some headers →
       re_search part_name_re headers = Some name →
       open_error path = None →
       ∃ w',
         handle_multipart_response download_dir open_error
           (Response status (Some content_type) disposition (Source chunk_list None)) w
         = (Ok w', length chunk_list)
         ∧ disk w' = <[path := []]> (disk w)
         ∧ opened w' = opened w ++ [path]
         ∧ stdout w' = stdout w).
Proof.
  intros Hb. split.
  - intros cs s Hfor. exists (outside s). split; [|done].
    unfold handle_multipart_response.
    cbn [content_type_header default from_option id body chunks failure].
    rewrite Hb, Hfor. cbn [bind end_of_source]. f_equal. by eapply chunks_taken_all.
  - intros cs headers name stream path Hfit Hm Hfind Hdec Hname Hopen.
    assert (Hmf : (Z.of_nat (length (marker boundary)) ≤ CHUNK_SIZE + 1)%Z).
    { rewrite marker_length. lia. }
    assert (Hfor : for_chunks download_dir open_error boundary (initial w) cs
                   = Ok (State (Some path) [] (0 + Z.of_nat (length stream))
                           (World (<[path := []]> (disk w)) (opened w ++ [path])
                                  (closed w) (stdout w)))).
    { rewrite for_chunks_concat by done. fold stream.
      pose proof (find_Some_length _ _ _ Hfind) as Hlen. change (length CRLFCRLF) with 4 in Hlen.
      unfold process_chunk. destruct stream as [|b l] eqn:Hstream; [done|].
      rewrite <- Hstream in *.
      unfold extend, count_bytes, initial, set_buffer.
      cbn [buffer current_file tot_bytes outside app].
      rewrite run_loop_nonempty by (cbn [buffer]; by rewrite Hstream).
      rewrite loop_body_marker by done.
      unfold start_of_part, close_current. cbn [buffer current_file tot_bytes outside].
      rewrite Hfind, Hdec, Hname. unfold file_open. fold path. rewrite Hopen.
      rewrite run_loop_unfold. cbn [buffer].
      rewrite drop_ge by lia. done. }
    eexists. split.
    + unfold handle_multipart_response.
      cbn [content_type_header default from_option id body chunks failure].
      rewrite Hb, Hfor, (chunks_taken_all _ _ _ _ _ _ Hfor).
      cbn [bind end_of_source outside]. reflexivity.
    + done.
Qed.

Lemma exhausted_source_returns_normally_witness :
  ∃ w',
    handle_multipart_response Sample.out Sample.can_open
      (Sample.multipart Sample.multipart_mixed (Sample.bytewise (Sample.part_header "f")))
      Sample.empty_world
    = (Ok w', length (Sample.bytewise (Sample.part_header "f")))
    ∧ disk w' = <[path_join Sample.out (str_of "f") := []]> (disk Sample.empty_world)
    ∧ opened w' = opened Sample.empty_world ++ [path_join Sample.out (str_of "f")]
    ∧ stdout w' = stdout Sample.empty_world.
Proof.
  eapply (proj2 (exhausted_source_returns_normally Sample.out Sample.can_open 200
                   Sample.multipart_mixed None (bytes_of "B") Sample.empty_world
                   eq_refl)).
  - vm_compute. discriminate.
  - vm_compute. reflexivity.
  - vm_compute. reflexivity.
  - vm_compute. reflexivity.
  - vm_compute. reflexivity.
  - reflexivity.
Defined.

(** C2 as the specification has it fails: the input ends right after a
    header block, and the decoder returns normally; no error is raised. *)
Lemma truncated_stream_is_not_an_error :
  ∃ w', (handle_multipart_response Sample.out Sample.can_open
           (Sample.multipart Sample.multipart_mixed [Sample.part_header "f"])
           Sample.empty_world).1 = Ok w'
        ∧ disk w' = <[str_of "out/f" := []]> ∅
        ∧ stdout w' = [].
Proof. eexists. split; [vm_compute; reflexivity | done]. Qed.

(** C3. A buffer that begins with the terminal marker also begins with the
    start marker, which the loop body tests first: the terminal marker is
    handled as the start of a part, and the branch written for it is never
    taken. *)
Theorem terminal_marker_taken_for_part_start
    (download_dir : str) (open_error : str → option exn) (boundary : bytes) (s : state) :
  startswith (terminal_marker boundary) (buffer s) = true →
  loop_body download_dir open_error boundary s = start_of_part download_dir open_error s.
Proof.
  intros Ht. apply loop_body_marker.
  eapply startswith_trans; [apply marker_terminal | done].
Qed.

(** At the failing input of C3: what follows the terminal marker is read
    as a part, and a file is created for it; nothing is printed. *)
Lemma terminal_marker_taken_for_part_start_witness :
  loop_body Sample.out Sample.can_open (bytes_of "B")
    (State None Sample.part_after_terminal 0 Sample.empty_world)
  = start_of_part Sample.out Sample.can_open
      (State None Sample.part_after_terminal 0 Sample.empty_world)
  ∧ handle_multipart_response Sample.out Sample.can_open
      (Sample.multipart Sample.multipart_mixed [Sample.part_after_terminal]) Sample.empty_world
    = (Ok (World (<[str_of "out/g" := []]> ∅) [str_of "out/g"] [] []), 1).
Proof.
  split.
  - apply (terminal_marker_taken_for_part_start Sample.out Sample.can_open (bytes_of "B")).
    vm_compute. reflexivity.
  - vm_compute. reflexivity.
Defined.

(** C4 as the code has it. Between two chunks, while a part is open, the
    buffer holds at most [CHUNK_SIZE] bytes, whatever the sizes of the
    chunks and of the boundary. *)
Theorem withheld_tail_at_most_chunk_size
    (download_dir : str) (open_error : str → option exn) (boundary : bytes)
    (chunk_list : list bytes) (w : world) (s : state) :
  for_chunks download_dir open_error boundary (initial w) chunk_list = Ok s →
  is_Some (current_file s) →
  (Z.of_nat (length (buffer s)) ≤ CHUNK_SIZE)%Z.
Proof.
  intros Hfor. eapply for_chunks_bounded; [|done].
  intros [p Hp]. done.
Qed.

Lemma withheld_tail_at_most_chunk_size_witness :
  for_chunks Sample.out Sample.can_open (bytes_of "B") (initial Sample.empty_world)
    [Sample.part_header "f" ++ bytes_of "0123456789"]
  = Ok (State (Some (str_of "out/f")) (bytes_of "0123456789") 37
              (World (<[str_of "out/f" := []]> ∅) [str_of "out/f"] [] []))
  ∧ (Z.of_nat (length (bytes_of "0123456789")) ≤ CHUNK_SIZE)%Z.
Proof.
  split; [vm_compute; reflexivity|].
  apply (withheld_tail_at_most_chunk_size Sample.out Sample.can_open (bytes_of "B")
           [Sample.part_header "f" ++ bytes_of "0123456789"] Sample.empty_world
           (State (Some (str_of "out/f")) (bytes_of "0123456789") 37
                  (World (<[str_of "out/f" := []]> ∅) [str_of "out/f"] [] []))).
  - vm_compute. reflexivity.
  - by eexists.
Defined.

(** C4 as the specification has it fails: with the one-byte boundary [B]
    the bound would be 5 bytes, and the decoder, a part open and no marker
    in sight, keeps all 10 bytes of the payload in the buffer. *)
Lemma withheld_tail_exceeds_boundary_length :
  for_chunks Sample.out Sample.can_open (bytes_of "B") (initial Sample.empty_world)
    [Sample.part_header "f" ++ bytes_of "0123456789"]
  = Ok (State (Some (str_of "out/f")) (bytes_of "0123456789") 37
              (World (<[str_of "out/f" := []]> ∅) [str_of "out/f"] [] []))
  ∧ find (marker (bytes_of "B")) (bytes_of "0123456789") = None
  ∧ length (bytes_of "B") + 4 < length (bytes_of "0123456789").
Proof. split; [vm_compute; reflexivity | split; [vm_compute; reflexivity | simpl; lia]]. Qed.

(** * Parts without a name *)




(** A header block without the key has no name for the client. *)
Lemma no_key_no_name headers :
  contains (str_of "X-Part-Name:") headers = false → re_search part_name_re headers = None.
Proof. apply re_search_literal_absent. Qed.

(** * The boundary token *)

(** C6. Without a boundary parameter in the Content-Type value the decoder
    raises its [ValueError] at once: no chunk has been taken from the
    response and the world is as it was. *)
Theorem missing_boundary_fails_before_reading
    (download_dir : str) (open_error : str → option exn) (r : response) (w : world) :
  contains (str_of "boundary=") (default [] (content_type_header r)) = false →
  handle_multipart_response download_dir open_error r w
  = (Raise (ValueError (str_of "No boundary found in Content-Type header")) w, 0).
Proof.
  intros Hno. unfold handle_multipart_response, extract_boundary, boundary_re.
  by rewrite re_search_literal_absent.
Qed.

Lemma missing_boundary_fails_before_reading_witness :
  handle_multipart_response Sample.out Sample.can_open
    (Sample.multipart (str_of "multipart/mixed") (Sample.bytewise Sample.two_parts))
    Sample.empty_world
  = (Raise (ValueError (str_of "No boundary found in Content-Type header")) Sample.empty_world, 0).
Proof.
  apply (missing_boundary_fails_before_reading Sample.out Sample.can_open).
  vm_compute. reflexivity.
Defined.

(** C9 as the code has it. The token is the UTF-8 encoding of the text
    that follows the first [boundary=] of the Content-Type value, up to the
    end of the line, and it may be empty; the two markers are built from
    its bytes as they are. *)
Theorem boundary_token_is_verbatim (content_type : str) (w : world) (boundary : bytes) :
  extract_boundary content_type w = Ok boundary →
  ∃ before token after,
    content_type = before ++ str_of "boundary=" ++ token ++ after
    ∧ find (str_of "boundary=") content_type = Some (length before)
    ∧ Forall (λ c, c ≠ 10%N) token
    ∧ (after = [] ∨ ∃ after', after = 10%N :: after')
    ∧ utf8_encode token = Some boundary
    ∧ marker boundary = CRLF ++ bytes_of "--" ++ boundary
    ∧ terminal_marker boundary = CRLF ++ bytes_of "--" ++ boundary ++ bytes_of "--".
Proof.
  unfold extract_boundary.
  destruct (re_search boundary_re content_type) as [group|] eqn:Hre; [|done].
  destruct (utf8_encode group) as [encoded|] eqn:Henc; [|done]. intros [= <-].
  destruct (boundary_re_group _ _ Hre) as (before & after & Hct & Hfind & Hline & Hafter).
  exists before, group, after. repeat split; done.
Qed.

Lemma boundary_token_is_verbatim_witness :
  ∃ before token after,
    str_of "multipart/mixed; boundary=B" = before ++ str_of "boundary=" ++ token ++ after
    ∧ find (str_of "boundary=") (str_of "multipart/mixed; boundary=B") = Some (length before)
    ∧ Forall (λ c, c ≠ 10%N) token
    ∧ (after = [] ∨ ∃ after', after = 10%N :: after')
    ∧ utf8_encode token = Some (bytes_of "B")
    ∧ marker (bytes_of "B") = CRLF ++ bytes_of "--" ++ bytes_of "B"
    ∧ terminal_marker (bytes_of "B") = CRLF ++ bytes_of "--" ++ bytes_of "B" ++ bytes_of "--".
Proof.
  apply (boundary_token_is_verbatim Sample.multipart_mixed Sample.empty_world (bytes_of "B")).
  vm_compute. reflexivity.
Defined.

(** C9 as the specification has it fails: a Content-Type value that ends
    with [boundary=] gives the empty token, and the decoder goes on to read
    the chunks. *)
Lemma boundary_token_may_be_empty :
  extract_boundary (str_of "multipart/mixed; boundary=") Sample.empty_world = Ok []
  ∧ handle_multipart_response Sample.out Sample.can_open
      (Sample.multipart (str_of "multipart/mixed; boundary=") [bytes_of "x"]) Sample.empty_world
    = (Ok Sample.empty_world, 1).
Proof. split; vm_compute; reflexivity. Qed.

(** * The single-file handler *)

Lemma write_chunks_disk path cs w data :
  disk w !! path = Some data →
  write_chunks path cs w
  = World (<[path := data ++ concat cs]> (disk w)) (opened w) (closed w) (stdout w).
Proof.
  revert w data; induction cs as [|c cs IH]; intros w data Hdata.
  - cbn [write_chunks foldl concat]. rewrite app_nil_r, insert_id by done. by destruct w.
  - unfold write_chunks in *. cbn [foldl concat]. destruct c as [|b c].
    + by apply IH.
    + rewrite (IH _ (data ++ b :: c)).
      * unfold file_write. cbn [disk opened closed stdout].
        rewrite Hdata, insert_insert_eq. cbn [default from_option id].
        by rewrite <- app_assoc.
      * unfold file_write. cbn [disk]. by rewrite Hdata, lookup_insert_eq.
Qed.

Lemma concat_length (cs : list bytes) : length (concat cs) = sum_list (length <$> cs).
Proof.
  induction cs as [|c cs IH]; [done|]. cbn [concat fmap list_fmap sum_list sum_list_with].
  rewrite length_app, IH. done.
Qed.

(** C8. With a filename in the Content-Disposition value the handler
    creates one file, writes the chunks to it in the order of arrival and
    closes it: the file holds the concatenation of the chunks, as many
    bytes as the chunks have together (also when the transport fails after
    the last of them, which the handler then raises). Without a filename it
    raises a [ValueError] and touches nothing. *)
Theorem single_file_holds_the_chunks_in_order
    (download_dir : str) (open_error : str → option exn) (w : world) :
  (∀ status content_type disposition filename chunk_list failure,
     let path := path_join download_dir filename in
     let written :=
       World (<[path := concat chunk_list]> (disk w)) (opened w ++ [path])
             (closed w ++ [path]) (stdout w) in
     re_search filename_re disposition = Some filename →
     open_error path = None →
     handle_single_file_response download_dir open_error
       (Response status content_type (Some disposition) (Source chunk_list failure)) w
     = (match failure with
        | None => Ok (print (PrintDownloaded filename) written)
        | Some e => Raise e written
        end,
        length chunk_list)
     ∧ length (concat chunk_list) = sum_list (length <$> chunk_list))
  ∧ (∀ r,
       contains (str_of "filename=") (default [] (content_disposition_header r)) = false →
       ∃ msg, handle_single_file_response download_dir open_error r w
              = (Raise (ValueError msg) w, 0)).
Proof.
  split.
  - intros status content_type disposition filename cs failure path written Hname Hopen.
    split; [|apply concat_length].
    unfold handle_single_file_response. cbn [content_disposition_header body chunks Client.failure].
    destruct disposition as [|c cd]; [done|].
    rewrite Hname. unfold file_open. fold path. rewrite Hopen.
    rewrite (write_chunks_disk path cs _ []) by (cbn [disk]; apply lookup_insert_eq).
    cbn [disk opened closed stdout app]. rewrite insert_insert_eq.
    unfold file_close. cbn [disk opened closed stdout]. fold written.
    by destruct failure.
  - intros r Hno. unfold handle_single_file_response.
    destruct (content_disposition_header r) as [[|c cd]|]; [by eexists | | by eexists].
    cbn [default from_option id] in Hno. unfold filename_re.
    rewrite re_search_literal_absent by done. by eexists.
Qed.

Lemma single_file_holds_the_chunks_in_order_witness :
  handle_single_file_response Sample.out Sample.can_open
    (Response 200 None (Some (str_of "attachment; filename=data.bin"))
       (Source [bytes_of "ab"; bytes_of "cde"; bytes_of "f"] None))
    Sample.empty_world
  = (Ok (World (<[path_join Sample.out (str_of "data.bin")
                  := concat [bytes_of "ab"; bytes_of "cde"; bytes_of "f"]]> ∅)
               [path_join Sample.out (str_of "data.bin")]
               [path_join Sample.out (str_of "data.bin")]
               [PrintDownloaded (str_of "data.bin")]),
     3)
  ∧ length (concat [bytes_of "ab"; bytes_of "cde"; bytes_of "f"]) = 6.
Proof.
  apply (proj1 (single_file_holds_the_chunks_in_order Sample.out Sample.can_open
                  Sample.empty_world)
           200%N None (str_of "attachment; filename=data.bin") (str_of "data.bin")
           [bytes_of "ab"; bytes_of "cde"; bytes_of "f"] None).
  - vm_compute. reflexivity.
  - reflexivity.
Defined.

(** * The handlers when nothing fails *)

Section NoFaults.
Context (download_dir : str) (open_error : str → option exn).

Lemma no_faults_loop_body boundary s :
  Faulty.loop_body download_dir open_error no_faults boundary s
  = loop_body download_dir open_error boundary s.
Proof.
  unfold Faulty.loop_body, loop_body. destruct (startswith _ _).
  - unfold Faulty.start_of_part, start_of_part, Faulty.close_current, close_current.
    destruct (current_file s); cbn [try_close close_error no_faults bind]; [|done].
    destruct (find _ _); [|done]. destruct (utf8_decode _); [|done].
    destruct (re_search _ _); [|done]. by destruct (file_open _ _ _).
  - destruct (startswith _ _).
    + unfold Faulty.end_of_all_parts, end_of_all_parts.
      cbn [try_print print_error no_faults bind]. by destruct (current_file s).
    + destruct (current_file s); [|done].
      unfold Faulty.middle_of_part, middle_of_part. destruct (find _ _); [done|].
      by destruct (0 <? _)%Z.
Qed.

Lemma no_faults_while_buffer boundary n s :
  Faulty.while_buffer download_dir open_error no_faults boundary n s
  = while_buffer download_dir open_error boundary n s.
Proof.
  revert s; induction n as [|n IH]; intros s; [done|].
  cbn [Faulty.while_buffer while_buffer]. rewrite no_faults_loop_body.
  destruct (buffer s); [done|]. by destruct (loop_body _ _ _ s) as [[s'|s']|].
Qed.

Lemma no_faults_process_chunk boundary s chunk :
  Faulty.process_chunk download_dir open_error no_faults boundary s chunk
  = process_chunk download_dir open_error boundary s chunk.
Proof.
  unfold Faulty.process_chunk, process_chunk, Faulty.run_loop, run_loop.
  destruct chunk; [done|]. apply no_faults_while_buffer.
Qed.

Lemma no_faults_for_chunks boundary cs s :
  Faulty.for_chunks download_dir open_error no_faults boundary s cs
  = for_chunks download_dir open_error boundary s cs
  ∧ Faulty.chunks_taken download_dir open_error no_faults boundary s cs
    = chunks_taken download_dir open_error boundary s cs.
Proof.
  revert s; induction cs as [|c cs IH]; intros s; [done|].
  cbn [Faulty.for_chunks for_chunks Faulty.chunks_taken chunks_taken].
  rewrite no_faults_process_chunk.
  destruct (process_chunk _ _ _ s c) as [s'|]; [|done]. cbn [bind].
  destruct (IH s') as [-> ->]. done.
Qed.

Lemma no_faults_write_chunks path cs w :
  Faulty.write_chunks no_faults path cs w = (Ok (write_chunks path cs w), length cs).
Proof.
  revert w; induction cs as [|c cs IH]; intros w; [done|].
  cbn [Faulty.write_chunks]. unfold write_chunks. cbn [foldl length].
  destruct c; cbn [try_write write_error no_faults]; by rewrite IH.
Qed.

(** With an environment in which no [write], [close] or [print] fails, the
    handlers are the ones of the first part. *)
Lemma no_faults_handlers r w :
  Faulty.handle_multipart_response download_dir open_error no_faults r w
  = handle_multipart_response download_dir open_error r w
  ∧ Faulty.handle_single_file_response download_dir open_error no_faults r w
    = handle_single_file_response download_dir open_error r w.
Proof.
  split.
  - unfold Faulty.handle_multipart_response, handle_multipart_response.
    destruct (extract_boundary _ _); [|done].
    by destruct (no_faults_for_chunks a (chunks (body r)) (initial w)) as [-> ->].
  - unfold Faulty.handle_single_file_response, handle_single_file_response.
    destruct (content_disposition_header r) as [[|c cd]|]; [done| |done].
    destruct (re_search _ _); [|done]. destruct (file_open _ _ _); [|done].
    rewrite no_faults_write_chunks. cbn [bind]. unfold end_of_source.
    by destruct (failure (body r)).
Qed.
End NoFaults.

(** * [download] *)

Section Raised.
Context (download_dir : str) (open_error : str → option exn) (io : faults).
Hypothesis open_raises :
  ∀ path e, open_error path = Some e → is_Exception e = true.
Hypothesis write_raises :
  ∀ path data w e reached, write_error io path data w = Some (e, reached) →
                           is_Exception e = true.
Hypothesis close_raises :
  ∀ path w e, close_error io path w = Some e → is_Exception e = true.
Hypothesis print_raises :
  ∀ line w e, print_error io line w = Some e → is_Exception e = true.

Lemma try_print_raises line w e w' :
  try_print io line w = Raise e w' → is_Exception e = true.
Proof.
  unfold try_print. destruct (print_error _ _ _) eqn:H; [|done]. intros [= <- _]. eauto.
Qed.

Lemma try_write_raises path data w e w' :
  try_write io path data w = Raise e w' → is_Exception e = true.
Proof.
  unfold try_write. destruct (write_error _ _ _ _) as [[e0 n]|] eqn:H; [|done].
  intros [= <- _]. eauto.
Qed.

Lemma try_close_raises path w e w' :
  try_close io path w = Raise e w' → is_Exception e = true.
Proof.
  unfold try_close. destruct (close_error _ _ _) eqn:H; [|done]. intros [= <- _]. eauto.
Qed.

Lemma file_open_raises path w e w' :
  file_open open_error path w = Raise e w' → is_Exception e = true.
Proof.
  unfold file_open. destruct (open_error _) eqn:H; [|done]. intros [= <- _]. eauto.
Qed.

Lemma loop_body_raises boundary s e w :
  Faulty.loop_body download_dir open_error io boundary s = Raise e w → is_Exception e = true.
Proof.
  unfold Faulty.loop_body. destruct (startswith _ _).
  - unfold Faulty.start_of_part, Faulty.close_current.
    destruct (current_file s).
    + destruct (try_close _ _ _) eqn:Hc; cbn [bind];
        [|intros [= <- _]; by eapply try_close_raises].
      cbn [buffer outside tot_bytes]. destruct (find _ _); [|done].
      destruct (utf8_decode _); [|by intros [= <- _]].
      destruct (re_search _ _); [|done].
      destruct (file_open _ _ _) eqn:Ho; cbn [bind]; [done|].
      intros [= <- _]. by eapply file_open_raises.
    + cbn [bind]. destruct (find _ _); [|done].
      destruct (utf8_decode _); [|by intros [= <- _]].
      destruct (re_search _ _); [|done].
      destruct (file_open _ _ _) eqn:Ho; cbn [bind]; [done|].
      intros [= <- _]. by eapply file_open_raises.
  - destruct (startswith _ _).
    + unfold Faulty.end_of_all_parts.
      destruct (try_print _ _ _) eqn:Hp; cbn [bind];
        [|intros [= <- _]; by eapply try_print_raises].
      destruct (current_file s); [|done].
      destruct (try_close _ _ _) eqn:Hc; cbn [bind]; [done|].
      intros [= <- _]. by eapply try_close_raises.
    + destruct (current_file s); [|done]. unfold Faulty.middle_of_part.
      destruct (find _ _).
      * destruct (try_write _ _ _ _) eqn:Hw; cbn [bind]; [done|].
        intros [= <- _]. by eapply try_write_raises.
      * destruct (0 <? _)%Z; [|done].
        destruct (try_write _ _ _ _) eqn:Hw; cbn [bind]; [done|].
        intros [= <- _]. by eapply try_write_raises.
Qed.

Lemma while_buffer_raises boundary n s e w :
  Faulty.while_buffer download_dir open_error io boundary n s = Raise e w →
  is_Exception e = true.
Proof.
  revert s; induction n as [|n IH]; intros s; cbn [Faulty.while_buffer]; [done|].
  destruct (buffer s); [done|].
  destruct (Faulty.loop_body _ _ _ _ s) as [[s'|s']|e' w'] eqn:Hs; [apply IH | done |].
  intros [= <- _]. by eapply loop_body_raises.
Qed.

Lemma for_chunks_raises boundary cs s e w :
  Faulty.for_chunks download_dir open_error io boundary s cs = Raise e w →
  is_Exception e = true.
Proof.
  revert s; induction cs as [|c cs IH]; intros s; cbn [Faulty.for_chunks]; [done|].
  destruct (Faulty.process_chunk _ _ _ _ s c) as [s'|e' w'] eqn:Hs; cbn [bind]; [apply IH|].
  intros [= <- _]. revert Hs. unfold Faulty.process_chunk. destruct c; [done|].
  apply while_buffer_raises.
Qed.

Lemma write_chunks_raises path cs w e w' :
  (Faulty.write_chunks io path cs w).1 = Raise e w' → is_Exception e = true.
Proof.
  revert w; induction cs as [|c cs IH]; intros w; cbn [Faulty.write_chunks]; [done|].
  destruct c.
  - specialize (IH w). by destruct (Faulty.write_chunks io path cs w).
  - destruct (try_write _ _ _ _) as [w1|] eqn:Hw.
    + specialize (IH w1). by destruct (Faulty.write_chunks io path cs w1).
    + intros [= <- _]. by eapply try_write_raises.
Qed.

(** Whatever the [try] block of [download] raises is an instance of
    [Exception], when what the environment raises is. *)
Lemma download_body_raises get w e w' :
  (∀ e, get = GetRaises e → is_Exception e = true) →
  (∀ r e, get = GetResponse r → failure (body r) = Some e → is_Exception e = true) →
  (download_body download_dir open_error io get w).1 = Raise e w' →
  is_Exception e = true.
Proof.
  intros Hget Hsource. unfold download_body. destruct get as [e0|r].
  { intros [= <- _]. by apply Hget. }
  specialize (Hsource r). unfold raise_for_status.
  destruct (_ && _); [by intros [= <- _]|].
  destruct (contains _ _).
  - unfold Faulty.handle_multipart_response, extract_boundary.
    destruct (re_search _ _); [|by intros [= <- _]].
    destruct (utf8_encode _); [|by intros [= <- _]]. cbn [fst].
    destruct (Faulty.for_chunks _ _ _ _ _ _) eqn:Hfor; cbn [bind].
    + unfold end_of_source. destruct (failure (body r)); [|done]. intros [= <- _]. eauto.
    + intros [= <- _]. by eapply for_chunks_raises.
  - unfold Faulty.handle_single_file_response.
    destruct (content_disposition_header r) as [[|c cd]|]; [by intros [= <- _]| |by intros [= <- _]].
    destruct (re_search _ _); [|by intros [= <- _]].
    destruct (file_open _ _ _) eqn:Ho; [|intros [= <- _]; by eapply file_open_raises].
    destruct (Faulty.write_chunks _ _ _ _) as [written taken] eqn:Hw. cbn [fst].
    assert (Hblock : ∀ e w', bind written (end_of_source (failure (body r))) = Raise e w' →
                             is_Exception e = true).
    { intros e1 w1. destruct written; cbn [bind].
      - unfold end_of_source. destruct (failure (body r)); [|done]. intros [= <- _]. eauto.
      - intros [= <- _]. eapply (write_chunks_raises _ _ _ _ _). by rewrite Hw. }
    destruct (bind written _) as [w1|e1 w1]; cbn [Faulty.leave_with].
    + destruct (try_close _ _ _) eqn:Hc; cbn [bind].
      * apply try_print_raises.
      * intros [= <- _]. by eapply try_close_raises.
    + destruct (try_close _ _ _) eqn:Hc; cbn [bind].
      * intros [= <- _]. by eapply Hblock.
      * intros [= <- _]. by eapply try_close_raises.
Qed.
End Raised.

(** C10 as the code has it. Whatever the [try] block of [download] raises
    with an error of its own making or of the transport, the filesystem,
    the server or standard output (all instances of [Exception]), one of
    the [except] clauses takes it and prints a line that shows it. When
    this [print] succeeds, [download] returns normally: the line is the
    last one on standard output and the files are as the exception left
    them. When this [print] raises, its exception leaves [download]. *)
Theorem download_catches_every_error
    (download_dir : str) (open_error : str → option exn) (io : faults)
    (get : fetched) (w : world) :
  (∀ e, get = GetRaises e → is_Exception e = true) →
  (∀ r e, get = GetResponse r → failure (body r) = Some e → is_Exception e = true) →
  (∀ path e, open_error path = Some e → is_Exception e = true) →
  (∀ path data w e reached, write_error io path data w = Some (e, reached) →
                            is_Exception e = true) →
  (∀ path w e, close_error io path w = Some e → is_Exception e = true) →
  (∀ line w e, print_error io line w = Some e → is_Exception e = true) →
  match (download_body download_dir open_error io get w).1 with
  | Ok w' => (download download_dir open_error io get w).1 = Ok w'
  | Raise e w1 =>
    let line := if is_ChunkedEncodingError e then PrintChunkedError e else PrintError e in
    match print_error io line w1 with
    | None =>
      (download download_dir open_error io get w).1
      = Ok (World (disk w1) (opened w1) (closed w1) (stdout w1 ++ [line]))
    | Some e' => (download download_dir open_error io get w).1 = Raise e' w1
    end
  end.
Proof.
  intros Hget Hsource Hopen Hwrite Hclose Hprint.
  pose proof (download_body_raises download_dir open_error io Hopen Hwrite Hclose Hprint
                get w) as Hraised.
  unfold download.
  destruct (download_body download_dir open_error io get w) as [[w'|e w1] taken]; [done|].
  cbn [fst] in *. specialize (Hraised e w1 Hget Hsource eq_refl). cbv zeta.
  destruct (is_ChunkedEncodingError e).
  - unfold try_print. by destruct (print_error _ _ _).
  - rewrite Hraised. unfold try_print. by destruct (print_error _ _ _).
Qed.

(** The disk is full at the second write of a single-file download: the
    error is caught and shown, and [download] returns. *)
Lemma download_catches_every_error_witness :
  (download Sample.out Sample.can_open Fixture.disk_full
     (GetResponse Fixture.single_file) Sample.empty_world).1
  = Ok (World (<[str_of "out/data.bin" := bytes_of "abc"]> ∅)
              [str_of "out/data.bin"] [str_of "out/data.bin"]
              [PrintError (OSError (str_of "out/data.bin"))]).
Proof.
  exact (download_catches_every_error Sample.out Sample.can_open Fixture.disk_full
           (GetResponse Fixture.single_file) Sample.empty_world
           ltac:(intros e [=])
           ltac:(intros r e [= <-]; discriminate)
           ltac:(intros path e [=])
           ltac:(intros path data w e reached; cbn [write_error Fixture.disk_full];
                 case_bool_decide; [done | by intros [= <- _]])
           ltac:(intros path w e [=])
           ltac:(intros line w e [=])).
Defined.

(** C10 as the specification has it fails. The transport fails while
    standard output is closed: the [print] of the [except] clause raises,
    and this exception reaches the caller. *)
Lemma failed_print_leaves_download :
  (download Sample.out Sample.can_open Fixture.closed_stdout
     (GetResponse (Response 200 (Some Sample.multipart_mixed) None
                     (Source [Sample.part_header "f"] (Some ChunkedEncodingError))))
     Sample.empty_world).1
  = Raise (OSError (str_of "<stdout>"))
          (World (<[str_of "out/f" := []]> ∅) [str_of "out/f"] [] []).
Proof. vm_compute. reflexivity. Qed.

(** * The speed helpers *)

(** C7. With no time elapsed both speeds are 0 and nothing is divided;
    [_format_speed] divides by 1024 from one unit to the next, from B/s up
    to TB/s, and prints two decimals: 1536 bytes in one second read
    [1.50 KB/s], and with no time elapsed both speeds read [0.00 B/s]. *)
Theorem speed_zero_without_elapsed_time_and_scaled_by_1024 :
  (∀ received total elapsed,
     PrimFloat.eqb elapsed 0 = true →
     calculate_speed received total elapsed = inr (0%float, 0%float)
     ∧ format_speed 0 = str_of "0.00 B/s")
  ∧ (∀ speed,
       let kilo := PrimFloat.div speed 1024 in
       let mega := PrimFloat.div kilo 1024 in
       let giga := PrimFloat.div mega 1024 in
       let tera := PrimFloat.div giga 1024 in
       format_speed speed
       = if PrimFloat.ltb speed 1024 then format_2f speed ++ str_of " B/s"
         else if PrimFloat.ltb kilo 1024 then format_2f kilo ++ str_of " KB/s"
         else if PrimFloat.ltb mega 1024 then format_2f mega ++ str_of " MB/s"
         else if PrimFloat.ltb giga 1024 then format_2f giga ++ str_of " GB/s"
         else format_2f tera ++ str_of " TB/s")
  ∧ calculate_speed 1536 1536 1 = inr (1536%float, 1536%float)
  ∧ format_speed 1536 = str_of "1.50 KB/s"
  ∧ format_2f 1.5 = str_of "1.50"
  ∧ format_2f 0.125 = str_of "0.12"
  ∧ format_speed 1048576 = str_of "1.00 MB/s"
  ∧ format_speed 1610612736 = str_of "1.50 GB/s"
  ∧ format_speed 1649267441664 = str_of "1.50 TB/s".
Proof.
  split; [|split; [|repeat split; vm_compute; reflexivity]].
  - intros received total elapsed Hzero. split; [|vm_compute; reflexivity].
    unfold calculate_speed. by rewrite Hzero.
  - intros speed. reflexivity.
Qed.

Lemma speed_zero_without_elapsed_time_and_scaled_by_1024_witness :
  calculate_speed 1536 1536 0 = inr (0%float, 0%float)
  ∧ format_speed 0 = str_of "0.00 B/s".
Proof.
  apply (proj1 speed_zero_without_elapsed_time_and_scaled_by_1024 1536%Z 1536%Z 0%float).
  vm_compute. reflexivity.
Defined.

(** * More about the multipart decoder *)

(** X1. The outcome of the multipart handler (what it returns or raises,
    with every file written, opened and closed and every line printed)
    depends only on the bytes of the stream, not on how the transport cut
    them into chunks, for a boundary of at most [CHUNK_SIZE - 3] bytes. *)
Theorem multipart_result_depends_only_on_bytes
    (download_dir : str) (open_error : str → option exn)
    (status : N) (content_type disposition : option str)
    (chunks1 chunks2 : list bytes) (failure : option exn) (w : world) :
  (∀ boundary, extract_boundary (default [] content_type) w = Ok boundary →
               (Z.of_nat (length boundary) + 3 ≤ CHUNK_SIZE)%Z) →
  concat chunks1 = concat chunks2 →
  (handle_multipart_response download_dir open_error
     (Response status content_type disposition (Source chunks1 failure)) w).1
  = (handle_multipart_response download_dir open_error
       (Response status content_type disposition (Source chunks2 failure)) w).1.
Proof.
  intros Hfit Hbytes. unfold handle_multipart_response.
  cbn [content_type_header body chunks Client.failure].
  destruct (extract_boundary (default [] content_type) w) as [boundary|e w'] eqn:Hb; [|done].
  cbn [fst]. rewrite !for_chunks_concat, Hbytes; [done | |];
    rewrite marker_length; specialize (Hfit boundary eq_refl); lia.
Qed.

Lemma multipart_result_depends_only_on_bytes_witness :
  (handle_multipart_response Sample.out Sample.can_open
     (Response 200 (Some Sample.multipart_mixed) None
        (Source (Sample.bytewise Sample.two_parts) None)) Sample.empty_world).1
  = (handle_multipart_response Sample.out Sample.can_open
       (Response 200 (Some Sample.multipart_mixed) None
          (Source [Sample.two_parts] None)) Sample.empty_world).1.
Proof.
  apply (multipart_result_depends_only_on_bytes Sample.out Sample.can_open).
  - intros boundary. vm_compute. intros [= <-]. discriminate.
  - vm_compute. reflexivity.
Defined.

(** X2. While a part is being written and no marker occurs in the
    buffered bytes followed by the new chunk, the chunk is neither lost,
    doubled nor reordered: the file's content followed by the buffer is
    what it was, followed by the chunk. The file stays the current one,
    no other file changes, and after a non-empty chunk the buffer holds
    the last [CHUNK_SIZE] bytes (all of them when there are fewer). *)
Theorem payload_is_neither_lost_nor_doubled
    (download_dir : str) (open_error : str → option exn) (boundary : bytes)
    (s : state) (chunk : bytes) (path : str) :
  current_file s = Some path →
  find (marker boundary) (buffer s ++ chunk) = None →
  ∃ s', process_chunk download_dir open_error boundary s chunk = Ok s'
        ∧ current_file s' = Some path
        ∧ default [] (disk (outside s') !! path) ++ buffer s'
          = default [] (disk (outside s) !! path) ++ buffer s ++ chunk
        ∧ (∀ other, other ≠ path → disk (outside s') !! other = disk (outside s) !! other)
        ∧ (chunk ≠ [] →
           Z.of_nat (length (buffer s'))
           = Z.min (Z.of_nat (length (buffer s ++ chunk))) CHUNK_SIZE).
Proof.
  intros Hcur Hnone. destruct s as [cur buf tot w]. cbn [current_file buffer outside] in *.
  subst cur. unfold process_chunk.
  destruct chunk as [|b chunk].
  { eexists. split; [done|]. cbn [count_bytes current_file buffer outside tot_bytes].
    rewrite app_nil_r. repeat split; done. }
  set (c := b :: chunk) in *.
  unfold extend, count_bytes, set_buffer. cbn [current_file buffer outside tot_bytes].
  rewrite run_loop_nonempty by (cbn [buffer]; unfold c; by destruct buf).
  rewrite (loop_body_middle _ _ _ _ path); [| |done].
  2:{ cbn [buffer]. apply (find_None_startswith _ _ 0 Hnone). }
  unfold middle_of_part. cbn [current_file buffer outside tot_bytes]. rewrite Hnone.
  unfold CHUNK_SIZE.
  destruct (0 <? _)%Z eqn:Hsafe.
  - apply Z.ltb_lt in Hsafe. eexists. split; [done|].
    cbn [current_file buffer outside file_write disk].
    rewrite lookup_insert_eq. cbn [default from_option id].
    split; [done|]. split; [|split].
    + by rewrite <- app_assoc, take_drop.
    + intros other Hne. by rewrite lookup_insert_ne.
    + intros _. rewrite length_drop. lia.
  - apply Z.ltb_ge in Hsafe. eexists. split; [done|].
    cbn [current_file buffer outside]. repeat split; try done. intros _. lia.
Qed.

Lemma payload_is_neither_lost_nor_doubled_witness :
  ∃ s', process_chunk Sample.out Sample.can_open (bytes_of "B") Fixture.writing (bytes_of "56789")
        = Ok s'
        ∧ current_file s' = Some (str_of "out/f")
        ∧ default [] (disk (outside s') !! str_of "out/f") ++ buffer s'
          = default [] (disk (outside Fixture.writing) !! str_of "out/f")
            ++ buffer Fixture.writing ++ bytes_of "56789"
        ∧ (∀ other, other ≠ str_of "out/f" →
                    disk (outside s') !! other = disk (outside Fixture.writing) !! other)
        ∧ (bytes_of "56789" ≠ [] →
           Z.of_nat (length (buffer s'))
           = Z.min (Z.of_nat (length (buffer Fixture.writing ++ bytes_of "56789"))) CHUNK_SIZE).
Proof.
  apply (payload_is_neither_lost_nor_doubled Sample.out Sample.can_open (bytes_of "B")
           Fixture.writing (bytes_of "56789") (str_of "out/f")).
  - reflexivity.
  - vm_compute. reflexivity.
Defined.

Section Disagreement.
Context {A : Type} `{EqDecision A}.

(** Two sequences that disagree on a byte keep disagreeing, whatever is
    appended. *)
Lemma startswith_never (p l x : list A) :
  startswith p l = false → startswith l p = false → startswith p (l ++ x) = false.
Proof.
  revert l; induction p as [|a p IH]; intros [|b l]; simpl; try done.
  case_bool_decide as Hab; [|case_bool_decide; [congruence | done]].
  subst b. rewrite bool_decide_eq_true_2 by done. apply IH.
Qed.
End Disagreement.

Section Waiting.
Context (download_dir : str) (open_error : str → option exn) (boundary : bytes).

#[local] Abbreviation loop_body := (loop_body download_dir open_error boundary).
#[local] Abbreviation run_loop := (run_loop download_dir open_error boundary).
#[local] Abbreviation process_chunk := (process_chunk download_dir open_error boundary).
#[local] Abbreviation for_chunks := (for_chunks download_dir open_error boundary).
#[local] Abbreviation marker := (marker boundary).

Lemma process_chunk_blocked s chunk :
  current_file s = None →
  startswith marker (buffer s ++ chunk) = false →
  process_chunk s chunk
  = Ok (State None (buffer s ++ chunk) (tot_bytes s + Z.of_nat (length chunk)) (outside s)).
Proof.
  intros Hcur Hhead. destruct s as [cur buf tot w]. cbn [current_file buffer] in *. subst cur.
  unfold Client.process_chunk. destruct chunk as [|b chunk].
  { unfold count_bytes. cbn [current_file buffer tot_bytes outside]. by rewrite app_nil_r. }
  unfold extend, count_bytes, set_buffer. cbn [current_file buffer tot_bytes outside].
  rewrite run_loop_nonempty by (cbn [buffer]; by destruct buf).
  unfold Client.loop_body. cbn [buffer current_file].
  by rewrite Hhead, (terminal_shadowed _ _ Hhead).
Qed.

(** X3. Outside a part, bytes that differ from the marker stop the
    decoder for good: when no file is open and the buffer disagrees with
    the marker at some position, every later chunk is only appended to the
    buffer. Nothing is written, opened, closed or printed, however many
    parts follow. *)
Theorem bytes_before_a_marker_block_the_decoder (s : state) (chunk_list : list bytes) :
  current_file s = None →
  startswith marker (buffer s) = false →
  startswith (buffer s) marker = false →
  for_chunks s chunk_list
  = Ok (State None (buffer s ++ concat chunk_list)
              (tot_bytes s + Z.of_nat (length (concat chunk_list))) (outside s)).
Proof.
  revert s; induction chunk_list as [|c cs IH]; intros s Hcur Hp Hl.
  - cbn [Client.for_chunks concat length]. destruct s as [cur buf tot w].
    cbn [current_file buffer tot_bytes outside] in *. subst cur.
    by rewrite app_nil_r, Z.add_0_r.
  - cbn [Client.for_chunks concat].
    rewrite process_chunk_blocked by (try done; by apply startswith_never).
    cbn [bind]. rewrite IH; cbn [current_file buffer tot_bytes outside].
    + rewrite <- app_assoc, length_app. do 2 f_equal. lia.
    + done.
    + by apply startswith_never.
    + destruct (startswith (buffer s ++ c) marker) eqn:E; [|done].
      assert (startswith (buffer s) marker = true); [|congruence].
      eapply startswith_trans; [|done]. apply startswith_prefix. by apply prefix_app_r.
Qed.


Lemma loop_body_tot_bytes s c :
  loop_body s = Ok c → match c with Continue s' | Break s' => tot_bytes s' = tot_bytes s end.
Proof.
  unfold Client.loop_body. destruct (startswith marker (buffer s)) eqn:Hm.
  - unfold Client.start_of_part.
    assert (Htot : tot_bytes (close_current s) = tot_bytes s).
    { unfold close_current. by destruct (current_file s). }
    destruct (find _ _); [|by intros [= <-]].
    destruct (utf8_decode _); [|done].
    destruct (re_search _ _); [|by intros [= <-]].
    by destruct (file_open _ _ _); [intros [= <-]|].
  - rewrite (terminal_shadowed _ _ Hm).
    destruct (current_file s); [|by intros [= <-]].
    unfold Client.middle_of_part. destruct (find _ _); [by intros [= <-]|].
    by destruct (0 <? _)%Z; intros [= <-].
Qed.

(** X5. [tot_bytes] is the number of bytes received: after any chunks
    that raise no error it has grown by the sum of their lengths. *)
Theorem tot_bytes_counts_every_byte (s s' : state) (chunk_list : list bytes) :
  for_chunks s chunk_list = Ok s' →
  tot_bytes s' = (tot_bytes s + Z.of_nat (length (concat chunk_list)))%Z.
Proof.
  revert s; induction chunk_list as [|c cs IH]; intros s; cbn [Client.for_chunks concat].
  - intros [= <-]. simpl. lia.
  - destruct (process_chunk s c) as [s1|] eqn:Hs1; [|done]. cbn [bind].
    intros Hfor. rewrite (IH _ Hfor), length_app.
    assert (tot_bytes s1 = (tot_bytes s + Z.of_nat (length c))%Z) as ->; [|lia].
    revert Hs1. unfold Client.process_chunk. destruct c as [|b c]; [by intros [= <-]|].
    apply (run_loop_preserves download_dir open_error boundary
             (λ x, tot_bytes x = (tot_bytes s + Z.of_nat (length (b :: c)))%Z)); [| |done].
    + intros s0 s2 H0 Hb. apply loop_body_tot_bytes in Hb. congruence.
    + intros s0 s2 H0 Hb. apply loop_body_tot_bytes in Hb. congruence.
Qed.
End Waiting.

Lemma bytes_before_a_marker_block_the_decoder_witness :
  for_chunks Sample.out Sample.can_open (bytes_of "B")
    Fixture.no_line_break (Sample.bytewise Sample.two_parts)
  = Ok (State None
          (buffer Fixture.no_line_break
           ++ concat (Sample.bytewise Sample.two_parts))
          (tot_bytes Fixture.no_line_break
           + Z.of_nat (length (concat (Sample.bytewise Sample.two_parts))))
          (outside Fixture.no_line_break)).
Proof.
  apply (bytes_before_a_marker_block_the_decoder Sample.out Sample.can_open (bytes_of "B")
           Fixture.no_line_break).
  - reflexivity.
  - vm_compute. reflexivity.
  - vm_compute. reflexivity.
Defined.


Lemma tot_bytes_counts_every_byte_witness :
  tot_bytes (State None (CRLF ++ bytes_of "--B--" ++ CRLF) 70 (after_parts Sample.out None
           [(str_of "f", bytes_of "hi"); (str_of "g", bytes_of "world")] Sample.empty_world))
  = (tot_bytes (initial Sample.empty_world)
     + Z.of_nat (length (concat (Sample.bytewise Sample.two_parts))))%Z.
Proof.
  apply (tot_bytes_counts_every_byte Sample.out Sample.can_open (bytes_of "B")
           (initial Sample.empty_world)).
  vm_compute. reflexivity.
Defined.

(** * The names that the patterns capture *)

(** What a repetition took are accepted characters, and the rest of the
    pattern matched what comes after them. *)
Lemma star_split {R} accept (k : str → option R) s taken r :
  star accept k s = Some (taken, r) →
  ∃ rest, s = taken ++ rest ∧ Forall (λ c, accept c = true) taken ∧ k rest = Some r.
Proof.
  revert taken; induction s as [|c s IH]; intros taken; cbn [star].
  - destruct (k []) eqn:Hk; [|done]. intros [= <- <-]. exists []. auto.
  - destruct (accept c) eqn:Hc.
    + destruct (star accept k s) as [[t r']|] eqn:Hs.
      * intros [= <- <-]. destruct (IH t eq_refl) as (rest & -> & Ht & Hk).
        exists rest. auto.
      * destruct (k (c :: s)) eqn:Hk; [|done]. intros [= <- <-]. exists (c :: s). auto.
    + destruct (k (c :: s)) eqn:Hk; [|done]. intros [= <- <-]. exists (c :: s). auto.
Qed.

(** When the rest of the pattern cannot fail, a repetition takes the
    longest run. *)
Lemma star_longest_total {R} accept (k : str → option R) (r : R) s :
  (∀ s', k s' = Some r) →
  ∃ run rest, star accept k s = Some (run, r) ∧ s = run ++ rest
              ∧ Forall (λ c, accept c = true) run
              ∧ (rest = [] ∨ ∃ c rest', rest = c :: rest' ∧ accept c = false).
Proof.
  intros Hk. induction s as [|c s (run & rest & Hstar & -> & Hrun & Hrest)]; cbn [star].
  - rewrite Hk. exists [], []. auto.
  - destruct (accept c) eqn:Hc.
    + rewrite Hstar. exists (c :: run), rest. auto.
    + rewrite Hk. exists [], (c :: run ++ rest). repeat split; eauto.
Qed.

Lemma not_quote_Forall (name : str) :
  Forall (λ c, not_quote c = true) name → QUOTE ∉ name.
Proof.
  intros Hall Hin. rewrite Forall_forall in Hall. specialize (Hall _ Hin).
  unfold not_quote in Hall. by rewrite N.eqb_refl in Hall.
Qed.

Lemma match_here_cons a pattern s :
  match_here (a :: pattern) s
  = match repeat_match (accepts a) (match_here pattern) (times a) s with
    | Some (taken, group) => Some (if captured a then taken else group)
    | None => None
    end.
Proof. reflexivity. Qed.

(** What [part_name_re] matches after its key. *)
Lemma part_name_group s name :
  match_here [Atom is_space ZeroOrMore false; Atom (N.eqb QUOTE) Once false;
              Atom not_quote OneOrMore true; Atom (N.eqb QUOTE) Once false] s
  = Some name →
  ∃ spaces after,
    s = spaces ++ [QUOTE] ++ name ++ [QUOTE] ++ after
    ∧ Forall (λ c, is_space c = true) spaces
    ∧ name ≠ []
    ∧ (QUOTE ∉ name).
Proof.
  rewrite match_here_cons. cbn [accepts times captured repeat_match].
  destruct (star is_space _ s) as [[spaces group]|] eqn:Hstar; [|done].
  intros [= ->]. apply star_split in Hstar as (s2 & -> & Hspaces & Hk).
  rewrite match_here_cons in Hk. cbn [accepts times captured repeat_match] in Hk.
  destruct s2 as [|q s3]; [done|].
  destruct (N.eqb_spec QUOTE q) as [<-|]; [|done].
  destruct (match_here _ s3) as [g|] eqn:Hg; [|done]. injection Hk as ->.
  rewrite match_here_cons in Hg. cbn [accepts times captured repeat_match] in Hg.
  destruct s3 as [|c s4]; [done|].
  destruct (not_quote c) eqn:Hc; [|done].
  destruct (star not_quote _ s4) as [[taken r]|] eqn:Hstar2; [|done].
  injection Hg as <-.
  apply star_split in Hstar2 as (s5 & -> & Htaken & Hk2).
  rewrite match_here_cons in Hk2. cbn [match_here accepts times captured repeat_match] in Hk2.
  destruct s5 as [|q' after]; [done|].
  destruct (N.eqb_spec QUOTE q') as [<-|]; [|done].
  exists spaces, after. split; [|split; [done|split; [done|]]].
  - simpl. by rewrite <- ?app_assoc.
  - apply not_quote_Forall. by constructor.
Qed.

(** X6. The name that the [X-Part-Name] pattern captures is the text
    between the first pair of quotes that follows the field name and
    optional white space: it is not empty and holds no quote. *)
Theorem part_name_is_the_text_between_quotes (headers name : str) :
  re_search part_name_re headers = Some name →
  ∃ before spaces after,
    headers = before ++ str_of "X-Part-Name:" ++ spaces ++ [QUOTE] ++ name ++ [QUOTE] ++ after
    ∧ Forall (λ c, is_space c = true) spaces
    ∧ name ≠ []
    ∧ (QUOTE ∉ name).
Proof.
  intros (j & Hj & Hm & _)%re_search_Some. unfold part_name_re in Hm.
  rewrite match_here_literal in Hm.
  destruct (startswith _ (drop j headers)) eqn:Hs; [|done].
  apply part_name_group in Hm as (spaces & after & Hrest & Hspaces & Hne & Hq).
  exists (take j headers), spaces, after. split; [|done].
  rewrite <- (take_drop j headers) at 1. f_equal.
  rewrite <- (take_drop (length (str_of "X-Part-Name:")) (drop j headers)).
  by rewrite (startswith_take _ _ Hs), Hrest.
Qed.

Lemma part_name_is_the_text_between_quotes_witness :
  ∃ before spaces after,
    str_of "X-Part-Name:  " ++ [QUOTE] ++ str_of "a b" ++ [QUOTE]
    = before ++ str_of "X-Part-Name:" ++ spaces ++ [QUOTE] ++ str_of "a b" ++ [QUOTE] ++ after
    ∧ Forall (λ c, is_space c = true) spaces
    ∧ str_of "a b" ≠ []
    ∧ (QUOTE ∉ str_of "a b").
Proof.
  apply (part_name_is_the_text_between_quotes
           (str_of "X-Part-Name:  " ++ [QUOTE] ++ str_of "a b" ++ [QUOTE]) (str_of "a b")).
  vm_compute. reflexivity.
Defined.

Lemma optional_quote_matches s :
  match_here [Atom (N.eqb QUOTE) ZeroOrOne false] s = Some [].
Proof.
  rewrite match_here_cons. cbn [match_here accepts times captured repeat_match].
  destruct s as [|c s]; [done|]. by destruct (QUOTE =? c)%N.
Qed.

(** The capture group of [filename_re] and the optional quote after it. *)
Lemma filename_group s name :
  match_here [Atom not_quote OneOrMore true; Atom (N.eqb QUOTE) ZeroOrOne false] s
  = Some name →
  ∃ after, s = name ++ after ∧ name ≠ [] ∧ (QUOTE ∉ name)
           ∧ (after = [] ∨ ∃ after', after = QUOTE :: after').
Proof.
  rewrite match_here_cons. cbn [accepts times captured repeat_match].
  destruct s as [|c s]; [done|]. destruct (not_quote c) eqn:Hc; [|done].
  destruct (star_longest_total not_quote
              (match_here [Atom (N.eqb QUOTE) ZeroOrOne false]) [] s
              optional_quote_matches)
    as (run & rest & Hstar & -> & Hrun & Hrest).
  rewrite Hstar. intros [= <-]. exists rest. split; [done|]. split; [done|]. split.
  - apply not_quote_Forall. by constructor.
  - destruct Hrest as [->|(c' & rest' & -> & Hc')]; [by left | right].
    exists rest'. unfold not_quote in Hc'. by destruct (N.eqb_spec c' QUOTE) as [->|].
Qed.

(** X7. The file name captured from a Content-Disposition value starts
    right after [filename=] and one optional quote, is not empty, holds
    no quote and runs to the next quote or, when there is none, to the
    end of the value: parameters that follow an unquoted name are part of
    the captured name. *)
Theorem filename_runs_to_the_next_quote (disposition name : str) :
  re_search filename_re disposition = Some name →
  ∃ before opening after,
    disposition = before ++ str_of "filename=" ++ opening ++ name ++ after
    ∧ (opening = [] ∨ opening = [QUOTE])
    ∧ name ≠ []
    ∧ (QUOTE ∉ name)
    ∧ (after = [] ∨ ∃ after', after = QUOTE :: after').
Proof.
  intros (j & Hj & Hm & _)%re_search_Some. unfold filename_re in Hm.
  rewrite match_here_literal in Hm.
  destruct (startswith _ (drop j disposition)) eqn:Hs; [|done].
  set (s1 := drop (length (str_of "filename=")) (drop j disposition)) in *.
  assert (Hsplit : disposition = take j disposition ++ str_of "filename=" ++ s1).
  { rewrite <- (take_drop j disposition) at 1. f_equal.
    rewrite <- (take_drop (length (str_of "filename=")) (drop j disposition)) at 1.
    by rewrite (startswith_take _ _ Hs). }
  clearbody s1. rewrite match_here_cons in Hm.
  cbn [accepts times captured repeat_match] in Hm.
  destruct s1 as [|c s2].
  - destruct (match_here _ []) as [g|] eqn:Hg; [|done]. injection Hm as ->.
    apply filename_group in Hg as (after & Hnil & Hne & _). by destruct name.
  - destruct (QUOTE =? c)%N eqn:Hq.
    + apply N.eqb_eq in Hq as <-.
      destruct (match_here _ s2) as [g|] eqn:Hg.
      * injection Hm as ->. apply filename_group in Hg as (after & -> & Hne & Hq & Hafter).
        exists (take j disposition), [QUOTE], after. by eauto 10.
      * destruct (match_here _ (QUOTE :: s2)) as [g|] eqn:Hg'; [|done].
        injection Hm as ->. apply filename_group in Hg' as (after & Heq & Hne & Hq & Hafter).
        destruct name as [|c' name]; [done|]. injection Heq as <- _.
        exfalso. apply Hq. apply list_elem_of_here.
    + destruct (match_here _ (c :: s2)) as [g|] eqn:Hg; [|done].
      injection Hm as ->. apply filename_group in Hg as (after & Heq & Hne & Hq' & Hafter).
      exists (take j disposition), [], after. rewrite Heq in Hsplit.
      split; [exact Hsplit | by eauto 10].
Qed.

Lemma filename_runs_to_the_next_quote_witness :
  ∃ before opening after,
    str_of "attachment; filename=data.bin; size=3"
    = before ++ str_of "filename=" ++ opening ++ str_of "data.bin; size=3" ++ after
    ∧ (opening = [] ∨ opening = [QUOTE])
    ∧ str_of "data.bin; size=3" ≠ []
    ∧ (QUOTE ∉ str_of "data.bin; size=3")
    ∧ (after = [] ∨ ∃ after', after = QUOTE :: after').
Proof.
  apply (filename_runs_to_the_next_quote (str_of "attachment; filename=data.bin; size=3")
           (str_of "data.bin; size=3")).
  vm_compute. reflexivity.
Defined.

(** * The bytes of the boundary token *)

Lemma to_N_byte_of_N (n : N) : (n < 256)%N → Byte.to_N (byte_of_N n) = n.
Proof.
  intros Hn. unfold byte_of_N. destruct (Byte.of_N n) as [b|] eqn:Hb.
  - by apply Byte.to_of_N.
  - apply Byte.of_N_None_iff in Hb. lia.
Qed.

Lemma byte_of_N_not_LF (n : N) : (n < 256)%N → n ≠ 10%N → byte_of_N n ≠ LF.
Proof.
  intros Hn Hne Heq. apply (f_equal Byte.to_N) in Heq.
  rewrite to_N_byte_of_N in Heq by done. by apply Hne.
Qed.

Lemma high_byte_not_LF (base n bound : N) :
  (n < bound)%N → (128 ≤ base)%N → (base + bound ≤ 256)%N → byte_of_N (base + n) ≠ LF.
Proof. intros Hn Hbase Hbound. apply byte_of_N_not_LF; lia. Qed.

(** The encoding of a character other than the line feed has no byte 10. *)
Lemma encode_char_no_LF (c : N) (encoded : bytes) :
  encode_char c = Some encoded → c ≠ 10%N → LF ∉ encoded.
Proof.
  unfold encode_char. intros Henc Hc.
  assert (Hmod : ∀ x base, (128 ≤ base)%N → (base + 64 ≤ 256)%N
                           → byte_of_N (base + x mod 64) ≠ LF).
  { intros x base Hb1 Hb2. apply (high_byte_not_LF base _ 64); [|done..].
    by apply N.mod_lt. }
  assert (Hdiv : ∀ d q base, (c < d * q)%N → (128 ≤ base)%N → (base + q ≤ 256)%N
                             → byte_of_N (base + c / d) ≠ LF).
  { intros d q base Hd Hb1 Hb2. apply (high_byte_not_LF base _ q); [|done..].
    by apply N.Div0.div_lt_upper_bound. }
  destruct (N.ltb_spec c 128).
  { injection Henc as <-. intros Hin%list_elem_of_singleton. symmetry in Hin.
    revert Hin. apply byte_of_N_not_LF; [lia | done]. }
  destruct (N.ltb_spec c 2048).
  { injection Henc as <-. rewrite !elem_of_cons, elem_of_nil.
    intros [Hin|[Hin|[]]]; symmetry in Hin; revert Hin.
    - apply (Hdiv 64 32)%N; lia.
    - apply Hmod; lia. }
  destruct (_ && _); [done|].
  destruct (N.ltb_spec c 65536).
  { injection Henc as <-. rewrite !elem_of_cons, elem_of_nil.
    intros [Hin|[Hin|[Hin|[]]]]; symmetry in Hin; revert Hin.
    - apply (Hdiv 4096 16)%N; lia.
    - apply Hmod; lia.
    - apply Hmod; lia. }
  destruct (N.ltb_spec c 1114112); [|done].
  injection Henc as <-. rewrite !elem_of_cons, elem_of_nil.
  intros [Hin|[Hin|[Hin|[Hin|[]]]]]; symmetry in Hin; revert Hin.
  - apply (Hdiv 262144 5)%N; lia.
  - apply Hmod; lia.
  - apply Hmod; lia.
  - apply Hmod; lia.
Qed.

Lemma utf8_encode_no_LF (s : str) (encoded : bytes) :
  utf8_encode s = Some encoded → Forall (λ c, c ≠ 10%N) s → LF ∉ encoded.
Proof.
  unfold utf8_encode. destruct (mapM encode_char s) as [pieces|] eqn:Hm; [|done].
  intros [= <-] Hall. apply mapM_Some in Hm.
  induction Hm as [|c piece s pieces Hc Hm IH]; [by apply not_elem_of_nil|].
  apply Forall_cons in Hall as [Hc10 Hall]. cbn [concat].
  rewrite elem_of_app. intros [Hin|Hin].
  - by apply (encode_char_no_LF _ _ Hc Hc10).
  - by apply IH.
Qed.

(** X8. The boundary that the decoder searches for holds no line feed
    byte. *)
Theorem boundary_token_has_no_line_feed (content_type : str) (w : world) (boundary : bytes) :
  extract_boundary content_type w = Ok boundary → LF ∉ boundary.
Proof.
  unfold extract_boundary.
  destruct (re_search boundary_re content_type) as [group|] eqn:Hre; [|done].
  destruct (utf8_encode group) as [encoded|] eqn:Henc; [|done]. intros [= <-].
  destruct (boundary_re_group _ _ Hre) as (before & after & _ & _ & Hline & _).
  by eapply utf8_encode_no_LF.
Qed.

Lemma boundary_token_has_no_line_feed_witness : LF ∉ bytes_of "B".
Proof.
  apply (boundary_token_has_no_line_feed Sample.multipart_mixed Sample.empty_world).
  vm_compute. reflexivity.
Defined.

(** * UTF-8: decoding what was encoded *)

Ltac comparison_facts E :=
  rewrite ?andb_true_iff, ?andb_false_iff, ?N.ltb_lt, ?N.ltb_ge, ?N.leb_le, ?N.leb_gt in E.

(** Settle the test of the [if] at the head of the goal by arithmetic. *)
Ltac settle_test :=
  match goal with
  | |- (if ?c then _ else _) = _ =>
    let E := fresh "E" in
    destruct c eqn:E; [try (exfalso; comparison_facts E; lia)
                      | try (exfalso; comparison_facts E; lia)]
  end.

Ltac split_equalities :=
  repeat match goal with
         | |- context [(?a =? ?b)%N] => destruct (N.eqb_spec a b); try lia
         end.

Lemma decode_encoded_char (c : N) (encoded rest : bytes) :
  encode_char c = Some encoded →
  utf8_decode (encoded ++ rest) = cons c <$> utf8_decode rest.
Proof.
  unfold encode_char.
  pose proof (N.div_mod c 64 ltac:(done)) as E1.
  pose proof (N.div_mod (c / 64) 64 ltac:(done)) as E2.
  pose proof (N.div_mod (c / 4096) 64 ltac:(done)) as E3.
  rewrite N.Div0.div_div in E2. change (64 * 64)%N with 4096%N in E2.
  rewrite N.Div0.div_div in E3. change (4096 * 64)%N with 262144%N in E3.
  pose proof (N.mod_lt c 64 ltac:(done)).
  pose proof (N.mod_lt (c / 64) 64 ltac:(done)).
  pose proof (N.mod_lt (c / 4096) 64 ltac:(done)).
  generalize dependent ((c / 4096) mod 64)%N. intros r2.
  generalize dependent ((c / 64) mod 64)%N. intros r1.
  generalize dependent (c mod 64)%N. intros r0.
  generalize dependent (c / 262144)%N. intros d.
  generalize dependent (c / 4096)%N. intros b.
  generalize dependent (c / 64)%N. intros a.
  intros E1 Hr0 E2 Hr1 E3 Hr2.
  destruct (N.ltb_spec c 128).
  { intros [= <-]. cbn [app utf8_decode]. rewrite to_N_byte_of_N by lia.
    settle_test. done. }
  destruct (N.ltb_spec c 2048).
  { intros [= <-]. cbn [app utf8_decode]. unfold in_range, is_continuation, in_range, low6.
    rewrite !to_N_byte_of_N by lia. repeat settle_test.
    f_equal. f_equal. lia. }
  destruct (N.leb_spec 55296 c); destruct (N.leb_spec c 57343); cbn [andb]; try done.
  all: destruct (N.ltb_spec c 65536).
  all: try (intros [= <-]; cbn [app utf8_decode];
            unfold in_range, is_continuation, in_range, low6;
            rewrite !to_N_byte_of_N by lia; split_equalities; repeat settle_test;
            f_equal; f_equal; lia).
  all: destruct (N.ltb_spec c 1114112); try done.
  all: intros [= <-]; cbn [app utf8_decode];
       unfold in_range, is_continuation, in_range, low6;
       rewrite !to_N_byte_of_N by lia; split_equalities; repeat settle_test;
       f_equal; f_equal; lia.
Qed.

Lemma utf8_decode_encoded (s : str) (encoded rest : bytes) :
  utf8_encode s = Some encoded →
  utf8_decode (encoded ++ rest) = (s ++.) <$> utf8_decode rest.
Proof.
  unfold utf8_encode. destruct (mapM encode_char s) as [pieces|] eqn:Hm; [|done].
  intros [= <-]. apply mapM_Some in Hm.
  induction Hm as [|c piece s pieces Hc Hm IH]; cbn [concat app].
  - by destruct (utf8_decode rest).
  - rewrite <- app_assoc, (decode_encoded_char _ _ _ Hc), IH.
    by destruct (utf8_decode rest).
Qed.

(** X17. The bytes of the boundary are valid UTF-8 that decode to the
    token of the Content-Type header, so a header block made of the
    marker and UTF-8 text decodes to CR LF, two dashes, the token and
    that text: this is the text the part name is searched in. *)
Theorem marker_decodes_to_the_boundary_text
    (content_type : str) (w : world) (boundary : bytes) :
  extract_boundary content_type w = Ok boundary →
  ∃ token, re_search boundary_re content_type = Some token
           ∧ utf8_decode boundary = Some token
           ∧ ∀ (headers : str) (encoded : bytes),
               utf8_encode headers = Some encoded →
               utf8_decode (marker boundary ++ encoded)
               = Some ([13; 10; 45; 45]%N ++ token ++ headers).
Proof.
  unfold extract_boundary.
  destruct (re_search boundary_re content_type) as [token|]; [|done].
  destruct (utf8_encode token) as [encoded|] eqn:Henc; [|done]. intros [= <-].
  exists token. split; [done|]. split.
  - rewrite <- (app_nil_r encoded), (utf8_decode_encoded _ _ _ Henc).
    cbn [utf8_decode fmap option_fmap option_map]. by rewrite app_nil_r.
  - intros headers block Hblock. unfold marker.
    assert (Hdashes : utf8_encode [13; 10; 45; 45]%N = Some (CRLF ++ bytes_of "--")) by done.
    rewrite <- (app_nil_r block), <- !app_assoc.
    rewrite (app_assoc CRLF), (utf8_decode_encoded _ _ _ Hdashes).
    rewrite (utf8_decode_encoded _ _ _ Henc), (utf8_decode_encoded _ _ _ Hblock).
    cbn [utf8_decode fmap option_fmap option_map]. by rewrite app_nil_r.
Qed.

Lemma marker_decodes_to_the_boundary_text_witness :
  ∃ token, re_search boundary_re Sample.multipart_mixed = Some token
           ∧ utf8_decode (bytes_of "B") = Some token
           ∧ ∀ (headers : str) (encoded : bytes),
               utf8_encode headers = Some encoded →
               utf8_decode (marker (bytes_of "B") ++ encoded)
               = Some ([13; 10; 45; 45]%N ++ token ++ headers).
Proof.
  apply (marker_decodes_to_the_boundary_text Sample.multipart_mixed Sample.empty_world).
  vm_compute. reflexivity.
Defined.

(** * Dictionaries *)

Section DictFacts.
Context {K V : Type} `{EqDecision K}.
Implicit Types d : list (K * V).

Lemma dict_get_None k d : k ∉ dict_keys d → dict_get k d = None.
Proof.
  induction d as [|[k' v] d IH]; [done|]. cbn [dict_keys fmap list_fmap fst dict_get].
  intros [Hne Hin]%not_elem_of_cons. rewrite decide_False by done. by apply IH.
Qed.

Lemma dict_get_Some k v d : dict_get k d = Some v → k ∈ dict_keys d.
Proof.
  induction d as [|[k' v'] d IH]; [done|]. cbn [dict_keys fmap list_fmap fst dict_get].
  case_decide as Hk; [subst; intros _; apply list_elem_of_here|].
  intros Hget. apply list_elem_of_further. by apply IH.
Qed.

Lemma dict_get_set_eq k v d : dict_get k (dict_set k v d) = Some v.
Proof.
  induction d as [|[k' v'] d IH]; cbn [dict_set dict_get].
  - by rewrite decide_True.
  - case_decide; cbn [dict_get]; [by rewrite decide_True|]. by rewrite decide_False.
Qed.

Lemma dict_get_set_ne k k' v d : k ≠ k' → dict_get k' (dict_set k v d) = dict_get k' d.
Proof.
  intros Hne. induction d as [|[k0 v0] d IH]; cbn [dict_set dict_get].
  - by rewrite decide_False.
  - case_decide as Hk.
    + subst k0. cbn [dict_get]. by rewrite !decide_False.
    + cbn [dict_get]. case_decide; [done | apply IH].
Qed.

Lemma dict_keys_set k v d k' :
  k' ∈ dict_keys (dict_set k v d) ↔ k' = k ∨ k' ∈ dict_keys d.
Proof.
  induction d as [|[k0 v0] d IH]; cbn [dict_set dict_keys fmap list_fmap fst].
  - rewrite elem_of_cons, elem_of_nil. tauto.
  - case_decide as Hk; cbn [fmap list_fmap fst].
    + subst k0. rewrite !elem_of_cons. tauto.
    + rewrite !elem_of_cons. unfold dict_keys in IH. rewrite IH. tauto.
Qed.

Lemma dict_keys_del k d k' : k' ∈ dict_keys (dict_del k d) → k' ∈ dict_keys d.
Proof.
  induction d as [|[k0 v0] d IH]; [done|]. cbn [dict_del dict_keys fmap list_fmap fst].
  case_decide; cbn [fmap list_fmap fst]; rewrite ?elem_of_cons; [by right|].
  intros [->|Hin]; [by left | right; by apply IH].
Qed.

Lemma dict_set_NoDup k v d : NoDup (dict_keys d) → NoDup (dict_keys (dict_set k v d)).
Proof.
  induction d as [|[k0 v0] d IH]; cbn [dict_set dict_keys fmap list_fmap fst].
  - intros _. apply NoDup_singleton.
  - intros [Hnot Hd]%NoDup_cons. case_decide as Hk; cbn [fmap list_fmap fst].
    + subst k0. by apply NoDup_cons.
    + apply NoDup_cons. split; [|by apply IH].
      intros [->|Hin]%dict_keys_set; done.
Qed.

Lemma dict_del_NoDup k d : NoDup (dict_keys d) → NoDup (dict_keys (dict_del k d)).
Proof.
  induction d as [|[k0 v0] d IH]; [done|]. cbn [dict_del dict_keys fmap list_fmap fst].
  intros [Hnot Hd]%NoDup_cons. case_decide; [done|]. cbn [fmap list_fmap fst].
  apply NoDup_cons. split; [|by apply IH]. intros Hin%dict_keys_del. done.
Qed.
End DictFacts.

(** * The listener *)

Section ListenerFacts.
Context {info : Type}.
Implicit Types devices : list (str * info).

Lemma before_first_dot_no_dot (name : str) : 46%N ∉ ESPListener.before_first_dot name.
Proof.
  induction name as [|c name IH]; cbn [ESPListener.before_first_dot].
  - apply not_elem_of_nil.
  - destruct (N.eqb_spec c 46); [apply not_elem_of_nil|].
    apply not_elem_of_cons. split; [congruence | done].
Qed.

Lemma before_first_dot_startswith (prefix name : str) :
  46%N ∉ prefix → startswith prefix name = true →
  startswith prefix (ESPListener.before_first_dot name) = true.
Proof.
  revert name; induction prefix as [|x prefix IH]; intros [|y name]; simpl; try done.
  intros [Hx Hp]%not_elem_of_cons. case_bool_decide as Hxy; [subst y|done].
  destruct (N.eqb_spec x 46); [congruence|]. simpl.
  rewrite bool_decide_eq_true_2 by done. by apply IH.
Qed.

Lemma after_calls_snoc (calls : list (ESPListener.call (info := info))) c :
  ESPListener.after_calls (calls ++ [c])
  = ESPListener.handle (ESPListener.after_calls calls) c.
Proof. unfold ESPListener.after_calls. by rewrite foldl_snoc. Qed.

Lemma after_calls_NoDup (calls : list (ESPListener.call (info := info))) :
  NoDup (dict_keys (ESPListener.after_calls calls)).
Proof.
  induction calls as [|c calls IH] using rev_ind; [apply NoDup_nil_2|].
  rewrite after_calls_snoc. destruct c as [type_ name [i|]|type_ name|type_ name];
    cbn [ESPListener.handle]; unfold ESPListener.add_service, ESPListener.remove_service,
      ESPListener.update_service; try done.
  - destruct (negb _); [done|]. by apply dict_set_NoDup.
  - by destruct (negb _).
  - destruct (dict_in _ _); [|done]. by apply dict_del_NoDup.
Qed.

Lemma after_calls_keys (calls : list (ESPListener.call (info := info))) (device_id : str) :
  device_id ∈ dict_keys (ESPListener.after_calls calls) →
  startswith (str_of "esp-") device_id = true ∧ (46%N ∉ device_id).
Proof.
  revert device_id. induction calls as [|c calls IH] using rev_ind; intros id.
  - intros Hin. by apply elem_of_nil in Hin.
  - rewrite after_calls_snoc. destruct c as [type_ name answer|type_ name|type_ name];
      cbn [ESPListener.handle]; unfold ESPListener.add_service, ESPListener.remove_service,
        ESPListener.update_service.
    + destruct (startswith (str_of "esp-") name) eqn:Hesp; cbn [negb]; [|apply IH].
      destruct answer as [i|]; [|apply IH].
      intros [->|Hin]%dict_keys_set; [|by apply IH]. split.
      * apply before_first_dot_startswith; [|done].
        vm_compute. intros Hin. repeat (apply elem_of_cons in Hin as [Hin|Hin]; [done|]).
        by apply elem_of_nil in Hin.
      * apply before_first_dot_no_dot.
    + destruct (dict_in _ _); [|apply IH]. intros Hin%dict_keys_del. by apply IH.
    + apply IH.
Qed.

(** X9. Whatever calls the browser makes, every key of the listener's
    [devices] starts with [esp-] and holds no dot, and no key is listed
    twice. *)
Theorem listed_devices_are_esp_hostnames
    (calls : list (ESPListener.call (info := info))) (device_id : str) :
  device_id ∈ dict_keys (ESPListener.after_calls calls) →
  startswith (str_of "esp-") device_id = true
  ∧ (46%N ∉ device_id)
  ∧ NoDup (dict_keys (ESPListener.after_calls calls)).
Proof.
  intros Hin. destruct (after_calls_keys calls device_id Hin) as [Hesp Hdot].
  split; [done|]. split; [done|]. apply after_calls_NoDup.
Qed.

(** X10. [remove_service] called with a name that holds a dot (as every
    service name of type [_https._tcp.local.] does) removes nothing: the
    devices are stored under the text before the first dot, the removal
    looks up the whole name. *)
Theorem remove_service_keeps_dotted_names
    (calls : list (ESPListener.call (info := info))) (type_ name : str) :
  46%N ∈ name →
  ESPListener.remove_service type_ name (ESPListener.after_calls calls)
  = ESPListener.after_calls calls.
Proof.
  intros Hdot. unfold ESPListener.remove_service, dict_in.
  rewrite dict_get_None; [done|]. intros Hin.
  by destruct (after_calls_keys calls name Hin).
Qed.

Lemma dict_set_keys_present (k : str) (v : info) devices :
  k ∈ dict_keys devices → dict_keys (dict_set k v devices) = dict_keys devices.
Proof.
  induction devices as [|[k0 v0] d IH]; [by intros ?%elem_of_nil|].
  cbn [dict_set dict_keys fmap list_fmap fst]. case_decide as Hk; [by subst|].
  intros [->|Hin]%elem_of_cons; [done|]. cbn [fmap list_fmap fst]. f_equal. by apply IH.
Qed.

(** X11. [add_service] for a name that starts with [esp-] and resolves to
    an [info] stores the info under the text before the first dot of the
    name and leaves every other device as it was; keys stay distinct, and
    a second announcement with the same host name replaces the info
    without adding an entry. *)
Theorem add_service_lists_the_hostname
    (devices : list (str * info)) (type_ name : str) (i : info) :
  startswith (str_of "esp-") name = true →
  let hostname := ESPListener.before_first_dot name in
  let devices' := ESPListener.add_service type_ name (Some i) devices in
  dict_get hostname devices' = Some i
  ∧ (∀ other, other ≠ hostname → dict_get other devices' = dict_get other devices)
  ∧ (NoDup (dict_keys devices) → NoDup (dict_keys devices'))
  ∧ (∀ type' name' i',
       startswith (str_of "esp-") name' = true →
       ESPListener.before_first_dot name' = hostname →
       let devices'' := ESPListener.add_service type' name' (Some i') devices' in
       dict_keys devices'' = dict_keys devices' ∧ dict_get hostname devices'' = Some i').
Proof.
  intros Hesp hostname devices'. unfold devices', ESPListener.add_service.
  rewrite Hesp. cbn [negb]. fold hostname.
  split; [apply dict_get_set_eq|]. split; [intros other Hne; by apply dict_get_set_ne|].
  split; [apply dict_set_NoDup|].
  intros type' name' i' Hesp' Hhost. cbv zeta. unfold ESPListener.add_service.
  rewrite Hesp'. cbn [negb]. rewrite Hhost. split; [|apply dict_get_set_eq].
  apply dict_set_keys_present. apply dict_keys_set. by left.
Qed.
End ListenerFacts.

(** * The configuration file *)

(** X12. A configuration file with a [from] entry reaches the command's
    defaults with that entry under [from_] (replacing a [from_] of the
    file) and without [from]; every other entry is as loaded, and the
    callback returns the path it was given. *)
Theorem config_from_key_is_renamed
    {V : Type} (load : str → gmap str V) (default_map : option (gmap str V))
    (path : str) (v : V) :
  load path !! str_of "from" = Some v →
  ∃ map, Config.config_callback load default_map (Some path) = (Some map, Some path)
         ∧ map !! str_of "from" = None
         ∧ map !! str_of "from_" = Some v
         ∧ (∀ key, key ≠ str_of "from" → key ≠ str_of "from_" → map !! key = load path !! key).
Proof.
  intros Hfrom. eexists. split; [done|]. unfold Config.rename_from. rewrite Hfrom.
  split; [|split].
  - rewrite lookup_insert_ne by done. apply lookup_delete_eq.
  - apply lookup_insert_eq.
  - intros key H1 H2. rewrite lookup_insert_ne by done. by rewrite lookup_delete_ne.
Qed.

(** * The choice of the device *)




Lemma listed_devices_are_esp_hostnames_witness :
  startswith (str_of "esp-") (str_of "esp-2") = true
  ∧ (46%N ∉ str_of "esp-2")
  ∧ NoDup (dict_keys (ESPListener.after_calls Fixture.calls)).
Proof.
  apply (listed_devices_are_esp_hostnames Fixture.calls (str_of "esp-2")).
  apply (bool_decide_unpack _). vm_compute. exact I.
Defined.

Lemma remove_service_keeps_dotted_names_witness :
  ESPListener.remove_service Fixture.service_type (str_of "esp-1._https._tcp.local.")
    (ESPListener.after_calls Fixture.calls)
  = ESPListener.after_calls Fixture.calls.
Proof.
  apply (remove_service_keeps_dotted_names Fixture.calls).
  apply (bool_decide_unpack _). vm_compute. exact I.
Defined.

Lemma add_service_lists_the_hostname_witness :
  let hostname := ESPListener.before_first_dot (str_of "esp-1._https._tcp.local.") in
  let devices' :=
    ESPListener.add_service Fixture.service_type (str_of "esp-1._https._tcp.local.")
      (Some 5) (ESPListener.after_calls Fixture.calls) in
  dict_get hostname devices' = Some 5
  ∧ (∀ other, other ≠ hostname →
              dict_get other devices' = dict_get other (ESPListener.after_calls Fixture.calls))
  ∧ (NoDup (dict_keys (ESPListener.after_calls Fixture.calls)) → NoDup (dict_keys devices'))
  ∧ (∀ type' name' i',
       startswith (str_of "esp-") name' = true →
       ESPListener.before_first_dot name' = hostname →
       let devices'' := ESPListener.add_service type' name' (Some i') devices' in
       dict_keys devices'' = dict_keys devices' ∧ dict_get hostname devices'' = Some i').
Proof.
  apply (add_service_lists_the_hostname (ESPListener.after_calls Fixture.calls)
           Fixture.service_type (str_of "esp-1._https._tcp.local.") 5).
  vm_compute. reflexivity.
Defined.

Lemma config_from_key_is_renamed_witness :
  ∃ map, Config.config_callback Fixture.load None (Some (str_of "config.yaml"))
         = (Some map, Some (str_of "config.yaml"))
         ∧ map !! str_of "from" = None
         ∧ map !! str_of "from_" = Some 1
         ∧ (∀ key, key ≠ str_of "from" → key ≠ str_of "from_" →
                   map !! key = Fixture.load (str_of "config.yaml") !! key).
Proof.
  apply (config_from_key_is_renamed Fixture.load None (str_of "config.yaml") 1).
  vm_compute. reflexivity.
Defined.


(** * The files that the decoder creates *)

Section FirstOccurrence.
Context {A : Type} `{EqDecision A}.


End FirstOccurrence.

Section Names.
Context (download_dir : str) (open_error : str → option exn) (boundary : bytes).

#[local] Abbreviation loop_body := (loop_body download_dir open_error boundary).
#[local] Abbreviation process_chunk := (process_chunk download_dir open_error boundary).
#[local] Abbreviation for_chunks := (for_chunks download_dir open_error boundary).




End Names.


(** * More about [download] and the end of the input *)

(** X15. When the request raises an [Exception], or the response has a
    status from 400 to 599, [download] prints the error and does nothing
    else: no chunk is taken from the response and no file is opened,
    written or closed. It returns normally with the error as the last
    line of standard output; when the [print] itself raises, that
    exception leaves [download] and nothing was printed. *)
Theorem nothing_is_read_without_a_good_status
    (download_dir : str) (open_error : str → option exn) (io : faults)
    (get : fetched) (w : world) :
  match get with
  | GetRaises e => is_Exception e = true
  | GetResponse r => (400 ≤ status_code r < 600)%N
  end →
  let e := match get with
           | GetRaises e => e
           | GetResponse r => HTTPError (status_code r)
           end in
  let line := if is_ChunkedEncodingError e then PrintChunkedError e else PrintError e in
  download download_dir open_error io get w
  = (match print_error io line w with
     | None => Ok (World (disk w) (opened w) (closed w) (stdout w ++ [line]))
     | Some e' => Raise e' w
     end, 0).
Proof.
  unfold download, download_body. destruct get as [e|r]; cbv zeta.
  - intros He. destruct (is_ChunkedEncodingError e); [|rewrite He];
      unfold try_print; by destruct (print_error _ _ _).
  - intros [Hlo Hhi]. unfold raise_for_status.
    rewrite (proj2 (N.leb_le _ _) Hlo), (proj2 (N.ltb_lt _ _) Hhi).
    cbn [andb is_ChunkedEncodingError is_Exception]. unfold try_print.
    by destruct (print_error _ _ _).
Qed.

Lemma nothing_is_read_without_a_good_status_witness :
  download Sample.out Sample.can_open Fixture.disk_full
    (GetResponse (Response 404 (Some Sample.multipart_mixed) None
                    (Source [Sample.two_parts] None))) Sample.empty_world
  = (Ok (World ∅ [] [] [PrintError (HTTPError 404)]), 0).
Proof.
  apply (nothing_is_read_without_a_good_status Sample.out Sample.can_open Fixture.disk_full
           (GetResponse (Response 404 (Some Sample.multipart_mixed) None
                           (Source [Sample.two_parts] None)))).
  cbn [status_code]. lia.
Defined.

(** X16. When the transport fails after some chunks, the multipart
    handler raises that failure after having processed all the chunks
    read before it. Done has not been printed, and the part that was
    being written is still open: every file opened is closed, except the
    current one. *)
Theorem transport_failure_leaves_the_part_open
    (download_dir : str) (open_error : str → option exn)
    (status : N) (content_type : str) (disposition : option str)
    (boundary : bytes) (chunk_list : list bytes) (e : exn) (w : world) (s : state) :
  extract_boundary content_type w = Ok boundary →
  opened w = closed w →
  for_chunks download_dir open_error boundary (initial w) chunk_list = Ok s →
  handle_multipart_response download_dir open_error
    (Response status (Some content_type) disposition (Source chunk_list (Some e))) w
  = (Raise e (outside s), length chunk_list)
  ∧ opened (outside s) = closed (outside s) ++ option_list (current_file s)
  ∧ stdout (outside s) = stdout w.
Proof.
  intros Hb Hw Hfor. split; [|split].
  - unfold handle_multipart_response.
    cbn [content_type_header default from_option id body chunks failure].
    rewrite Hb, Hfor. cbn [bind end_of_source]. f_equal. by eapply chunks_taken_all.
  - eapply for_chunks_balanced; [|done]. unfold balanced. simpl. by rewrite app_nil_r.
  - by eapply done_is_never_printed.
Qed.

Lemma transport_failure_leaves_the_part_open_witness :
  handle_multipart_response Sample.out Sample.can_open
    (Response 200 (Some Sample.multipart_mixed) None
       (Source [Sample.part_header "f" ++ bytes_of "0123456789"] (Some ChunkedEncodingError)))
    Sample.empty_world
  = (Raise ChunkedEncodingError
       (outside (State (Some (str_of "out/f")) (bytes_of "0123456789") 37
                       (World (<[str_of "out/f" := []]> ∅) [str_of "out/f"] [] []))),
     length [Sample.part_header "f" ++ bytes_of "0123456789"])
  ∧ opened (outside (State (Some (str_of "out/f")) (bytes_of "0123456789") 37
                       (World (<[str_of "out/f" := []]> ∅) [str_of "out/f"] [] [])))
    = closed (outside (State (Some (str_of "out/f")) (bytes_of "0123456789") 37
                         (World (<[str_of "out/f" := []]> ∅) [str_of "out/f"] [] [])))
      ++ option_list (current_file
                        (State (Some (str_of "out/f")) (bytes_of "0123456789") 37
                           (World (<[str_of "out/f" := []]> ∅) [str_of "out/f"] [] [])))
  ∧ stdout (outside (State (Some (str_of "out/f")) (bytes_of "0123456789") 37
                       (World (<[str_of "out/f" := []]> ∅) [str_of "out/f"] [] [])))
    = stdout Sample.empty_world.
Proof.
  apply (transport_failure_leaves_the_part_open Sample.out Sample.can_open 200
           Sample.multipart_mixed None (bytes_of "B")).
  - vm_compute. reflexivity.
  - reflexivity.
  - vm_compute. reflexivity.
Defined.
